(** * The Gibbs orchestrator [bsvar] of src/bsvar.cpp

    A shallow embedding of the entry point [bsvar]: the Armadillo
    containers it allocates and writes, the host services it calls
    (progress bar, user-interrupt poll, R's random number generator) and
    the three conditional samplers it drives, followed by the properties
    of the sampling loop. *)

From Stdlib Require Import ZArith Lia List Bool.
From stdpp Require Import base list.
Import ListNotations.

Local Open Scope Z_scope.

(** ** Armadillo containers

    Only what [bsvar] does with them: allocation, the sizes, and the
    assignment of one slice or one column. *)

Section Containers.
Context {elt : Type}.

(** [arma::vec]: one column of elements. *)
Definition vec := list elt.

(** [arma::mat], column by column as Armadillo stores it. *)
Record mat := Mat { n_rows : nat; columns : list vec }.

Definition n_cols (m : mat) : nat := length (columns m).

(** [arma::cube]: [n_slices] matrices of one fixed size. *)
Record cube := Cube { c_n_rows : nat; c_n_cols : nat; slices : list mat }.

Definition n_slices (c : cube) : nat := length (slices c).

(** [mat(r, c)] and [cube(r, c, s)]: every element holds [fresh], the
    content of newly acquired memory. *)
Definition mat_new (fresh : elt) (r c : nat) : mat :=
  Mat r (replicate c (replicate r fresh)).

Definition cube_new (fresh : elt) (r c s : nat) : cube :=
  Cube r c (replicate s (mat_new fresh r c)).

(** [Q.slice(s)] and [M.col(s)] as values. *)
Definition slice (q : cube) (s : nat) : option mat := slices q !! s.
Definition col (m : mat) (s : nat) : option vec := columns m !! s.

(** [Q.slice(s) = m]: a slice has a fixed size, so the assignment is
    refused unless [m] has the dimensions of the cube. *)
Definition slice_assign (q : cube) (s : nat) (m : mat) : option cube :=
  if bool_decide (s < n_slices q)%nat
     && bool_decide (n_rows m = c_n_rows q)
     && bool_decide (n_cols m = c_n_cols q)
  then Some (Cube (c_n_rows q) (c_n_cols q) (<[s := m]> (slices q)))
  else None.

(** [M.col(s) = v]: copy into a submatrix, refused unless [v] has
    [n_rows] elements. *)
Definition col_assign (m : mat) (s : nat) (v : vec) : option mat :=
  if bool_decide (s < n_cols m)%nat && bool_decide (length v = n_rows m)
  then Some (Mat (n_rows m) (<[s := v]> (columns m)))
  else None.
(** Shapes: an r x c matrix, an r x c x s cube, and an r x c matrix
    whose columns all hold r elements. *)
Definition mat_shape (m : mat) (r c : nat) : Prop :=
  n_rows m = r /\ n_cols m = c.

Definition cube_shape (q : cube) (r c s : nat) : Prop :=
  c_n_rows q = r /\ c_n_cols q = c /\ n_slices q = s /\
  Forall (fun m => mat_shape m r c) (slices q).

Definition columns_shape (m : mat) (r c : nat) : Prop :=
  mat_shape m r c /\ Forall (fun v : vec => length v = r) (columns m).

(** Two buffers of one size that hold the same first [n] slices. *)
Definition cube_agree (n : nat) (q1 q2 : cube) : Prop :=
  c_n_rows q1 = c_n_rows q2 /\ c_n_cols q1 = c_n_cols q2 /\
  n_slices q1 = n_slices q2 /\ take n (slices q1) = take n (slices q2).

Definition mat_agree (n : nat) (m1 m2 : mat) : Prop :=
  n_rows m1 = n_rows m2 /\ n_cols m1 = n_cols m2 /\
  take n (columns m1) = take n (columns m2).
End Containers.

Arguments vec : clear implicits.
Arguments mat : clear implicits.
Arguments cube : clear implicits.

(** ** The samplers' interface (sample_ABhyper.h)

    [bsvar] never computes with matrix elements, with the state of R's
    random number generator or with the list of priors: it only hands them
    to the samplers and copies the draws.  The three are therefore kept
    abstract.  A sampler reads its arguments and the generator, and either
    throws ([None]) or yields the new value of the argument it updates in
    place, its first one, together with the advanced generator. *)
Class Samplers := {
  elt : Type;
  rng : Type;
  Rcpp_List : Type;
  sample_hyperparameters :
    vec elt -> mat elt -> mat elt -> list (mat elt) -> Rcpp_List ->
    rng -> option (vec elt * rng);
  sample_A_homosk1 :
    mat elt -> mat elt -> vec elt -> mat elt -> mat elt -> Rcpp_List ->
    rng -> option (mat elt * rng);
  sample_B_homosk1 :
    mat elt -> mat elt -> vec elt -> mat elt -> mat elt -> Rcpp_List ->
    list (mat elt) -> rng -> option (mat elt * rng)
}.

(** The part of the host that [bsvar] cannot control: whether a user
    interrupt is pending when iteration [s] polls for it, and what newly
    allocated memory holds. *)
Record host `{Samplers} := Host {
  interrupt_pending : Z -> bool;
  fresh : elt
}.
Arguments Host {_} _ _.

(** ** Effects *)

Inductive sampler := Hyper | RowsA | ColumnsB.

(** What leaves [bsvar] instead of a result. *)
Inductive exn :=
| Interrupted                 (* thrown by checkUserInterrupt() *)
| SamplerFailed (f : sampler) (* thrown inside a sampler *)
| SizeMismatch                (* Armadillo: assignment of a wrong size *)
| BadAlloc.                   (* a container of negative extent *)

Section Effects.
Context `{Samplers}.

(** The calls [bsvar] makes, in the iteration [s] that makes them, with
    the arguments the callee reads. *)
Inductive event :=
| Increment (s : Z)
| CheckUserInterrupt (s : Z)
| SampleHyper (s : Z) (hyper : vec elt) (B A : mat elt)
| SampleA (s : Z) (A B : mat elt) (hyper : vec elt)
| SampleB (s : Z) (B A : mat elt) (hyper : vec elt)
| WriteB (s : Z) (B : mat elt)
| WriteA (s : Z) (A : mat elt)
| WriteHyper (s : Z) (hyper : vec elt).

(** A computation threads the generator, logs its calls and may throw. *)
Record run (T : Type) := Run {
  value : exn + T;
  events : list event;
  rng_out : rng
}.
Global Arguments Run {T}.
Global Arguments value {T}.
Global Arguments events {T}.
Global Arguments rng_out {T}.

Definition M (T : Type) : Type := rng -> run T.

Definition ret {T} (x : T) : M T := fun g => Run (inr x) [] g.

Definition throw {T} (e : exn) : M T := fun g => Run (inl e) [] g.

Definition emit (e : event) : M unit := fun g => Run (inr tt) [e] g.

(** [log ev r]: the run [r] after the calls [ev]. *)
Definition log {T} (ev : list event) (r : run T) : run T :=
  Run (value r) (ev ++ events r) (rng_out r).

Definition bind {T U} (m : M T) (k : T -> M U) : M U := fun g =>
  match m g with
  | Run (inl e) ev g1 => Run (inl e) ev g1
  | Run (inr x) ev g1 => log ev (k x g1)
  end.

Definition when (b : bool) (m : M unit) : M unit :=
  if b then m else ret tt.

(** A call of a sampler: consult the generator, throw if the sampler does. *)
Definition draw {T} (f : sampler) (d : rng -> option (T * rng)) : M T :=
  fun g =>
    match d g with
    | Some (x, g') => Run (inr x) [] g'
    | None => Run (inl (SamplerFailed f)) [] g
    end.

(** An Armadillo operation that checks sizes. *)
Definition checked {T} (o : option T) : M T :=
  match o with
  | Some x => ret x
  | None => throw SizeMismatch
  end.
End Effects.

Notation "'let*' x := m 'in' k" := (bind m (fun x => k))
  (at level 10, x name, m at level 100, k at level 200).

(** ** The program *)

(** [arma::round(arma::linspace(0, S, 50))]: the points [i * (S / 49)] for
    [i = 0 .. 48], then [S] itself, each rounded to the nearest integer.
    The quotient [i * S / 49] is never half-way between two integers
    (49 is odd) and stays at least 1/98 away from it, far more than the
    error of the two floating-point operations on a 32-bit [S]; the rounded
    point is therefore the integer nearest to the exact quotient. *)
Definition nearest (a b : Z) : Z := (2 * a + b) / (2 * b).

Definition linspace_round (S : Z) : list Z :=
  map (fun i => nearest (i * S) 49) (seqZ 0 49) ++ [S].

(** [any(prog_rep_points == s)] *)
Definition any_eq (points : list Z) (s : Z) : bool :=
  existsb (Z.eqb s) points.

Section Program.
Context `{Samplers}.

(** The input list [starting_values]. *)
Record starting := Starting {
  sv_A : mat elt;
  sv_B : mat elt;
  sv_hyper : vec elt
}.

(** The variables the loop updates. *)
Record locals := Locals {
  aux_B : mat elt;
  aux_A : mat elt;
  aux_hyper : vec elt;
  posterior_B : cube elt;
  posterior_A : cube elt;
  posterior_hyper : mat elt
}.

(** The two lists [bsvar] returns. *)
Record last_draw := LastDraw {
  ld_B : mat elt;
  ld_A : mat elt;
  ld_hyper : vec elt
}.

Record posterior := Posterior {
  post_B : cube elt;
  post_A : cube elt;
  post_hyper : mat elt
}.

Record result := Result {
  res_last_draw : last_draw;
  res_posterior : posterior
}.

Variable h : host.

(** [checkUserInterrupt()] returns normally or throws; its caller
    ignores what it returns. *)
Definition checkUserInterrupt (s : Z) : M unit :=
  let* _ := emit (CheckUserInterrupt s) in
  if interrupt_pending h s then throw Interrupted else ret tt.

(** [cube Q(r, c, S)] and [mat M(r, S)] for an [int S]. *)
Definition cube_ctor (r c : nat) (S : Z) : M (cube elt) :=
  if S <? 0 then throw BadAlloc
  else ret (cube_new (fresh h) r c (Z.to_nat S)).

Definition mat_ctor (r : nat) (S : Z) : M (mat elt) :=
  if S <? 0 then throw BadAlloc
  else ret (mat_new (fresh h) r (Z.to_nat S)).

Section Loop.
Variable prog_rep_points : list Z.
Variables Y X : mat elt.
Variable VB : list (mat elt).
Variable prior : Rcpp_List.

(** The body of the [s] loop, lines 119-130. *)
Definition iteration (s : Z) (l : locals) : M locals :=
  let* _ := when (any_eq prog_rep_points s) (emit (Increment s)) in
  let* _ := when (Z.rem s 200 =? 0) (checkUserInterrupt s) in
  let* _ := emit (SampleHyper s (aux_hyper l) (aux_B l) (aux_A l)) in
  let* hyper := draw Hyper
    (sample_hyperparameters (aux_hyper l) (aux_B l) (aux_A l) VB prior) in
  let* _ := emit (SampleA s (aux_A l) (aux_B l) hyper) in
  let* A := draw RowsA
    (sample_A_homosk1 (aux_A l) (aux_B l) hyper Y X prior) in
  let* _ := emit (SampleB s (aux_B l) A hyper) in
  let* B := draw ColumnsB
    (sample_B_homosk1 (aux_B l) A hyper Y X prior VB) in
  let* _ := emit (WriteB s B) in
  let* pB := checked (slice_assign (posterior_B l) (Z.to_nat s) B) in
  let* _ := emit (WriteA s A) in
  let* pA := checked (slice_assign (posterior_A l) (Z.to_nat s) A) in
  let* _ := emit (WriteHyper s hyper) in
  let* pH := checked (col_assign (posterior_hyper l) (Z.to_nat s) hyper) in
  ret (Locals B A hyper pB pA pH).

(** [for (int s = s0; s < S; s++)], with [n] iterations left. *)
Fixpoint gibbs_loop (n : nat) (s : Z) (l : locals) : M locals :=
  match n with
  | O => ret l
  | Datatypes.S n' =>
      let* l' := iteration s l in
      gibbs_loop n' (s + 1) l'
  end.
End Loop.

(** The value of [List::create(...)], lines 133-144. *)
Definition finalize (l : locals) : result :=
  Result (LastDraw (aux_B l) (aux_A l) (aux_hyper l))
         (Posterior (posterior_B l) (posterior_A l) (posterior_hyper l)).

(** The entry point, lines 87-145.  The banner it prints on [Rcout] and
    the construction of the progress bar leave no trace here. *)
Definition bsvar (S : Z) (Y X : mat elt) (VB : list (mat elt))
    (prior : Rcpp_List) (starting_values : starting) : M result :=
  let prog_rep_points := linspace_round S in
  let N := n_rows Y in
  let K := n_rows X in
  let aux_B := sv_B starting_values in
  let aux_A := sv_A starting_values in
  let aux_hyper := sv_hyper starting_values in
  let* posterior_B := cube_ctor N N S in
  let* posterior_A := cube_ctor N K S in
  let* posterior_hyper := mat_ctor 5 S in
  let* l := gibbs_loop prog_rep_points Y X VB prior (Z.to_nat S) 0
              (Locals aux_B aux_A aux_hyper
                      posterior_B posterior_A posterior_hyper) in
  ret (finalize l).
End Program.

(** ** Reading a run *)

(** The calls of a trace without their arguments. *)
Inductive call :=
| CIncrement | CPoll
| CHyper | CRowsA | CColumnsB
| CWriteB | CWriteA | CWriteHyper.

Global Instance call_eq_dec : EqDecision call.
Proof. solve_decision. Defined.

Section Reading.
Context `{Samplers}.

Definition call_of (e : event) : call :=
  match e with
  | Increment _ => CIncrement
  | CheckUserInterrupt _ => CPoll
  | SampleHyper _ _ _ _ => CHyper
  | SampleA _ _ _ _ => CRowsA
  | SampleB _ _ _ _ => CColumnsB
  | WriteB _ _ => CWriteB
  | WriteA _ _ => CWriteA
  | WriteHyper _ _ => CWriteHyper
  end.

Definition iteration_of (e : event) : Z :=
  match e with
  | Increment s | CheckUserInterrupt s
  | SampleHyper s _ _ _ | SampleA s _ _ _ | SampleB s _ _ _
  | WriteB s _ | WriteA s _ | WriteHyper s _ => s
  end.

(** The iterations in which a trace makes the call [c], in order. *)
Definition iterations_of (c : call) (es : list event) : list Z :=
  omap (fun e => if decide (call_of e = c) then Some (iteration_of e)
                 else None) es.

(** Whether iteration [s] makes the call [c] when it runs to its end. *)
Definition scheduled (points : list Z) (c : call) (s : Z) : bool :=
  match c with
  | CIncrement => any_eq points s
  | CPoll => Z.rem s 200 =? 0
  | _ => true
  end.

Definition schedule (points : list Z) (c : call) (s0 n : Z) : list Z :=
  List.filter (scheduled points c) (seqZ s0 n).

(** The trace of an iteration that runs to its end from the variables
    [l] and draws [hyper], [A] and [B]. *)
Definition iteration_events (points : list Z) (s : Z) (l : locals)
    (B A : mat elt) (hyper : vec elt) : list event :=
  (if any_eq points s then [Increment s] else []) ++
  (if Z.rem s 200 =? 0 then [CheckUserInterrupt s] else []) ++
  [SampleHyper s (aux_hyper l) (aux_B l) (aux_A l);
   SampleA s (aux_A l) (aux_B l) hyper;
   SampleB s (aux_B l) A hyper;
   WriteB s B; WriteA s A; WriteHyper s hyper].

(** The variables on entry to the loop, lines 106-115. *)
Definition initial (h : host) (S : Z) (Y X : mat elt) (sv : starting)
  : locals :=
  Locals (sv_B sv) (sv_A sv) (sv_hyper sv)
         (cube_new (fresh h) (n_rows Y) (n_rows Y) (Z.to_nat S))
         (cube_new (fresh h) (n_rows Y) (n_rows X) (Z.to_nat S))
         (mat_new (fresh h) 5 (Z.to_nat S)).

(** Two sets of variables that differ at most in the slices from [n]
    on, which no iteration has written yet. *)
Definition locals_agree (n : nat) (l1 l2 : locals) : Prop :=
  aux_B l1 = aux_B l2 /\ aux_A l1 = aux_A l2 /\
  aux_hyper l1 = aux_hyper l2 /\
  cube_agree n (posterior_B l1) (posterior_B l2) /\
  cube_agree n (posterior_A l1) (posterior_A l2) /\
  mat_agree n (posterior_hyper l1) (posterior_hyper l2).

(** The run of [bsvar] cut after its first [n] iterations. *)
Definition first_iterations (h : host) (S : Z) (Y X : mat elt)
    (VB : list (mat elt)) (prior : Rcpp_List) (sv : starting) (n : nat)
  : M locals :=
  gibbs_loop h (linspace_round S) Y X VB prior n 0 (initial h S Y X sv).

(** Whether the inputs agree on N, K and T as section 3 of the
    specification asks; the prior is opaque here. *)
Definition dimensions_agree (Y X : mat elt) (VB : list (mat elt))
    (sv : starting) : bool :=
  bool_decide (n_cols Y = n_cols X)
  && bool_decide (n_rows (sv_A sv) = n_rows Y)
  && bool_decide (n_cols (sv_A sv) = n_rows X)
  && bool_decide (n_rows (sv_B sv) = n_rows Y)
  && bool_decide (n_cols (sv_B sv) = n_rows Y)
  && bool_decide (length (sv_hyper sv) = 5%nat)
  && bool_decide (length VB = n_rows Y).

(** Samplers that do not throw and draw a 5-vector, an N x K matrix and
    an N x N matrix. *)
Definition samplers_keep_shape (N K : nat) : Prop :=
  (forall hyper B A VB prior g, exists hyper' g',
      sample_hyperparameters hyper B A VB prior g = Some (hyper', g') /\
      length hyper' = 5%nat) /\
  (forall A B hyper Y X prior g, exists A' g',
      sample_A_homosk1 A B hyper Y X prior g = Some (A', g') /\
      mat_shape A' N K) /\
  (forall B A hyper Y X prior VB g, exists B' g',
      sample_B_homosk1 B A hyper Y X prior VB g = Some (B', g') /\
      mat_shape B' N N).

(** Modelled from the spec: the body of [sample_hyperparameters], which
    sample_ABhyper.h declares and no source file here defines.  Section
    4.1: the sampler draws a new vector of shrinkage hyperparameters and
    "all values must be strictly positive"; [positive] is the order of
    the element type, which the interface leaves abstract. *)
Definition hyper_draws_positive (positive : elt -> Prop) : Prop :=
  forall hyper B A VB prior g hyper' g',
    sample_hyperparameters hyper B A VB prior g = Some (hyper', g') ->
    Forall positive hyper'.

(** The Gibbs cycle as section 4.4 words it: the hyperparameters given
    (A, B); then A given B and the new hyperparameters; then B given the
    new A and the new hyperparameters. *)
Definition cycle_spec (Y X : mat elt) (VB : list (mat elt))
    (prior : Rcpp_List) (B A : mat elt) (hyper : vec elt) (g : rng)
  : option (mat elt * mat elt * vec elt * rng) :=
  match sample_hyperparameters hyper B A VB prior g with
  | None => None
  | Some (hyper', g1) =>
      match sample_A_homosk1 A B hyper' Y X prior g1 with
      | None => None
      | Some (A', g2) =>
          match sample_B_homosk1 B A' hyper' Y X prior VB g2 with
          | None => None
          | Some (B', g3) => Some (B', A', hyper', g3)
          end
      end
  end.
End Reading.

(** ** Chains and failures *)

Section Chains.
Context `{Samplers}.

(** [n] Gibbs cycles in a row, each from the state and the generator the
    one before it left. *)
Fixpoint cycles (Y X : mat elt) (VB : list (mat elt)) (prior : Rcpp_List)
    (n : nat) (B A : mat elt) (hyper : vec elt) (g : rng)
  : option (mat elt * mat elt * vec elt * rng) :=
  match n with
  | O => Some (B, A, hyper, g)
  | Datatypes.S n' =>
      match cycle_spec Y X VB prior B A hyper g with
      | None => None
      | Some (B', A', hyper', g') => cycles Y X VB prior n' B' A' hyper' g'
      end
  end.

(** The list [last_draw] of one call handed to the next as its
    [starting_values]: both name their fields B, A and hyper. *)
Definition continue_from (d : last_draw) : starting :=
  Starting (ld_A d) (ld_B d) (ld_hyper d).


(** Whether the call [ev] is one that throws [e]: a poll that finds an
    interrupt pending, a sampler that throws on the arguments it was
    given, or the copy of a draw that does not have the size of its
    slice. *)
Definition thrown_by (h : host) (Y X : mat elt) (VB : list (mat elt))
    (prior : Rcpp_List) (e : exn) (ev : event) : Prop :=
  match e, ev with
  | Interrupted, CheckUserInterrupt s =>
      Z.rem s 200 = 0 /\ interrupt_pending h s = true
  | SamplerFailed Hyper, SampleHyper _ hyper B A =>
      exists g, sample_hyperparameters hyper B A VB prior g = None
  | SamplerFailed RowsA, SampleA _ A B hyper =>
      exists g, sample_A_homosk1 A B hyper Y X prior g = None
  | SamplerFailed ColumnsB, SampleB _ B A hyper =>
      exists g, sample_B_homosk1 B A hyper Y X prior VB g = None
  | SizeMismatch, WriteB _ B => ~ mat_shape B (n_rows Y) (n_rows Y)
  | SizeMismatch, WriteA _ A => ~ mat_shape A (n_rows Y) (n_rows X)
  | SizeMismatch, WriteHyper _ hyper => length hyper <> 5%nat
  | _, _ => False
  end.
End Chains.

(** ** A concrete instance

    Stand-in samplers over integers, with a counter for the generator:
    the hyperparameters move by the counter plus one, A moves by the
    counter and B doubles. *)
Definition toy : Samplers := {|
  elt := Z;
  rng := nat;
  Rcpp_List := unit;
  sample_hyperparameters := fun hyper _ _ _ _ g =>
    Some (map (fun x => Z.abs x + Z.of_nat g + 1) hyper, Datatypes.S g);
  sample_A_homosk1 := fun A _ _ _ _ _ g =>
    Some (Mat (n_rows A) (map (map (fun x => x + Z.of_nat g)) (columns A)),
          Datatypes.S g);
  sample_B_homosk1 := fun B _ _ _ _ _ _ g =>
    Some (Mat (n_rows B) (map (map (fun x => 2 * x)) (columns B)),
          Datatypes.S g)
|}.

(** A host in which an interrupt is pending from iteration [k] on. *)
Definition toy_host (k : Z) : @host toy := @Host toy (fun s => k <=? s) 0.

(** A host with an interrupt pending from iteration 1 on, whose fresh
    memory holds 7. *)
Definition busy_host : @host toy := @Host toy (fun s => 1 <=? s) 7.

(** A host that never interrupts. *)
Definition quiet_host (junk : Z) : @host toy := @Host toy (fun _ => false) junk.

(** N = 1, K = 2, T = 3. *)
Definition toy_Y : mat Z := Mat 1 [[1]; [2]; [3]].
Definition toy_X : mat Z := Mat 2 [[1; 1]; [1; 2]; [1; 3]].
Definition toy_VB : list (mat Z) := [Mat 1 [[1]]].
Definition toy_start : @starting toy :=
  @Starting toy (Mat 1 [[0]; [0]]) (Mat 1 [[1]]) [1; 1; 1; 1; 1].

(** What three draws from [toy_start] return under a host that does not
    interrupt. *)
Definition toy_result : @result toy :=
  @Result toy
    (@LastDraw toy (Mat 1 [[8]]) (Mat 1 [[12]; [12]]) [13; 13; 13; 13; 13])
    (@Posterior toy
       (Cube 1 1 [Mat 1 [[2]]; Mat 1 [[4]]; Mat 1 [[8]]])
       (Cube 1 2 [Mat 1 [[1]; [1]]; Mat 1 [[5]; [5]]; Mat 1 [[12]; [12]]])
       (Mat 5 [[2; 2; 2; 2; 2]; [6; 6; 6; 6; 6]; [13; 13; 13; 13; 13]])).

(** Inputs that disagree: X has four observations where Y has three, and
    the starting A is 3x1 where N x K is 1x2. *)
Definition odd_X : mat Z := Mat 2 [[1; 1]; [1; 2]; [1; 3]; [1; 4]].
Definition odd_start : @starting toy :=
  @Starting toy (Mat 3 [[0; 0; 0]]) (Mat 1 [[1]]) [1; 1; 1; 1; 1].

(** What one draw from [toy_start] returns, and what two more return
    when started from its last draw with the generator where it left it. *)
Definition toy_result_1 : @result toy :=
  @Result toy
    (@LastDraw toy (Mat 1 [[2]]) (Mat 1 [[1]; [1]]) [2; 2; 2; 2; 2])
    (@Posterior toy
       (Cube 1 1 [Mat 1 [[2]]])
       (Cube 1 2 [Mat 1 [[1]; [1]]])
       (Mat 5 [[2; 2; 2; 2; 2]])).

Definition toy_result_2 : @result toy :=
  @Result toy
    (@LastDraw toy (Mat 1 [[8]]) (Mat 1 [[12]; [12]]) [13; 13; 13; 13; 13])
    (@Posterior toy
       (Cube 1 1 [Mat 1 [[4]]; Mat 1 [[8]]])
       (Cube 1 2 [Mat 1 [[5]; [5]]; Mat 1 [[12]; [12]]])
       (Mat 5 [[6; 6; 6; 6; 6]; [13; 13; 13; 13; 13]])).

(** Stand-in samplers of which the one for A throws once the generator
    has been consulted four times, that is in the second iteration. *)
Definition brittle : Samplers := {|
  elt := Z;
  rng := nat;
  Rcpp_List := unit;
  sample_hyperparameters := fun hyper _ _ _ _ g =>
    Some (map (fun x => Z.abs x + Z.of_nat g + 1) hyper, Datatypes.S g);
  sample_A_homosk1 := fun A _ _ _ _ _ g =>
    if (4 <=? g)%nat then None
    else Some (Mat (n_rows A) (map (map (fun x => x + Z.of_nat g)) (columns A)),
               Datatypes.S g);
  sample_B_homosk1 := fun B _ _ _ _ _ _ g =>
    Some (Mat (n_rows B) (map (map (fun x => 2 * x)) (columns B)),
          Datatypes.S g)
|}.

Definition brittle_host : @host brittle := @Host brittle (fun _ => false) 0.
Definition brittle_start : @starting brittle :=
  @Starting brittle (Mat 1 [[0]; [0]]) (Mat 1 [[1]]) [1; 1; 1; 1; 1].

(** ** The monad *)

Section MonadFacts.
Context `{Samplers}.

Lemma run_eta {T} (r : run T) : r = Run (value r) (events r) (rng_out r).
Proof. destruct r; reflexivity. Qed.

Lemma log_nil {T} (r : run T) : log [] r = r.
Proof. destruct r; reflexivity. Qed.

Lemma log_log {T} ev ev' (r : run T) : log ev (log ev' r) = log (ev ++ ev') r.
Proof. unfold log. simpl. rewrite app_assoc. reflexivity. Qed.

Lemma bind_ok {T U} (m : M T) (k : T -> M U) g x ev g' :
  m g = Run (inr x) ev g' -> bind m k g = log ev (k x g').
Proof. intros E. unfold bind. rewrite E. reflexivity. Qed.

Lemma bind_fail {T U} (m : M T) (k : T -> M U) g e ev g' :
  m g = Run (inl e) ev g' -> bind m k g = Run (inl e) ev g'.
Proof. intros E. unfold bind. rewrite E. reflexivity. Qed.

Lemma bind_inr {T U} (m : M T) (k : T -> M U) g y :
  value (bind m k g) = inr y ->
  exists x, value (m g) = inr x /\
            bind m k g = log (events (m g)) (k x (rng_out (m g))).
Proof.
  unfold bind. destruct (m g) as [[e|x] ev g1]; simpl; [discriminate|].
  intros E. exists x. auto.
Qed.

Lemma bind_events_prefix {T U} (m : M T) (k : T -> M U) g :
  events (m g) `prefix_of` events (bind m k g).
Proof.
  unfold bind. destruct (m g) as [[e|x] ev g1]; simpl.
  - reflexivity.
  - apply prefix_app_r. reflexivity.
Qed.

Lemma bind_assoc {T U V} (m : M T) (k : T -> M U) (k' : U -> M V) g :
  bind (bind m k) k' g = bind m (fun x => bind (k x) k') g.
Proof.
  unfold bind. destruct (m g) as [[e|x] ev g1]; simpl; [reflexivity|].
  destruct (k x g1) as [[e|y] ev2 g2]; simpl; [reflexivity|].
  symmetry. apply log_log.
Qed.

Lemma bind_ext {T U} (m : M T) (k k' : T -> M U) g :
  (forall x g', k x g' = k' x g') -> bind m k g = bind m k' g.
Proof.
  intros E. unfold bind. destruct (m g) as [[e|x] ev g1]; rewrite ?E; reflexivity.
Qed.

Lemma bind_ext_l {T U} (m m' : M T) (k : T -> M U) g :
  m g = m' g -> bind m k g = bind m' k g.
Proof. intros E. unfold bind. rewrite E. reflexivity. Qed.

Lemma bind_ret_l {T U} (x : T) (k : T -> M U) g : bind (ret x) k g = k x g.
Proof. unfold bind, ret. apply log_nil. Qed.

(** The primitives in front of a continuation. *)
Lemma bind_emit {U} e (k : unit -> M U) g :
  bind (emit e) k g = log [e] (k tt g).
Proof. reflexivity. Qed.

Lemma bind_when {U} b (m : M unit) (k : unit -> M U) g :
  bind (when b m) k g = if b then bind m k g else k tt g.
Proof. destruct b; [reflexivity|]. apply bind_ret_l. Qed.

Lemma bind_draw {T U} f (d : rng -> option (T * rng)) (k : T -> M U) g :
  bind (draw f d) k g =
  match d g with
  | Some (x, g') => k x g'
  | None => Run (inl (SamplerFailed f)) [] g
  end.
Proof.
  unfold bind, draw. destruct (d g) as [[x g']|]; [|reflexivity].
  apply log_nil.
Qed.

Lemma bind_checked {T U} (o : option T) (k : T -> M U) g :
  bind (checked o) k g =
  match o with
  | Some x => k x g
  | None => Run (inl SizeMismatch) [] g
  end.
Proof. destruct o; [apply bind_ret_l|reflexivity]. Qed.

Lemma bind_checkUserInterrupt {U} h s (k : unit -> M U) g :
  bind (checkUserInterrupt h s) k g =
  log [CheckUserInterrupt s]
      (if interrupt_pending h s then Run (inl Interrupted) [] g else k tt g).
Proof.
  unfold checkUserInterrupt. rewrite bind_assoc, bind_emit.
  destruct (interrupt_pending h s); [reflexivity|].
  rewrite bind_ret_l. reflexivity.
Qed.
End MonadFacts.

(** ** The containers *)

Section ContainerFacts.
Context {T : Type}.
Implicit Types (q : cube T) (m : mat T) (v : vec T).

Lemma slice_assign_Some q s m q' :
  slice_assign q s m = Some q' ->
  (s < n_slices q)%nat /\ n_rows m = c_n_rows q /\ n_cols m = c_n_cols q /\
  q' = Cube (c_n_rows q) (c_n_cols q) (<[s := m]> (slices q)).
Proof.
  unfold slice_assign. intros E.
  destruct (bool_decide (s < n_slices q)%nat) eqn:E1; [|discriminate].
  destruct (bool_decide (n_rows m = c_n_rows q)) eqn:E2; [|discriminate].
  destruct (bool_decide (n_cols m = c_n_cols q)) eqn:E3; [|discriminate].
  apply bool_decide_eq_true in E1, E2, E3. simpl in E.
  injection E as <-. auto.
Qed.

Lemma col_assign_Some m s v m' :
  col_assign m s v = Some m' ->
  (s < n_cols m)%nat /\ length v = n_rows m /\
  m' = Mat (n_rows m) (<[s := v]> (columns m)).
Proof.
  unfold col_assign. intros E.
  destruct (bool_decide (s < n_cols m)%nat) eqn:E1; [|discriminate].
  destruct (bool_decide (length v = n_rows m)) eqn:E2; [|discriminate].
  apply bool_decide_eq_true in E1, E2. simpl in E.
  injection E as <-. auto.
Qed.

Lemma slice_assign_same q s m q' :
  slice_assign q s m = Some q' -> slice q' s = Some m.
Proof.
  intros (Hs & _ & _ & ->)%slice_assign_Some. unfold slice. simpl.
  apply list_lookup_insert_eq. exact Hs.
Qed.

Lemma slice_assign_other q s m q' i :
  slice_assign q s m = Some q' -> i <> s -> slice q' i = slice q i.
Proof.
  intros (_ & _ & _ & ->)%slice_assign_Some Hi. unfold slice. simpl.
  apply list_lookup_insert_ne. congruence.
Qed.

Lemma col_assign_same m s v m' :
  col_assign m s v = Some m' -> col m' s = Some v.
Proof.
  intros (Hs & _ & ->)%col_assign_Some. unfold col. simpl.
  apply list_lookup_insert_eq. exact Hs.
Qed.

Lemma col_assign_other m s v m' i :
  col_assign m s v = Some m' -> i <> s -> col m' i = col m i.
Proof.
  intros (_ & _ & ->)%col_assign_Some Hi. unfold col. simpl.
  apply list_lookup_insert_ne. congruence.
Qed.

Lemma slice_assign_shape q s m q' r c n :
  slice_assign q s m = Some q' -> cube_shape q r c n -> cube_shape q' r c n.
Proof.
  intros (Hs & Hr & Hc & ->)%slice_assign_Some (Er & Ec & En & Hall).
  unfold cube_shape, n_slices in *. simpl.
  rewrite length_insert. repeat split; try assumption.
  apply Forall_insert; [assumption|]. split; congruence.
Qed.

Lemma col_assign_shape m s v m' r c :
  col_assign m s v = Some m' -> columns_shape m r c -> columns_shape m' r c.
Proof.
  intros (Hs & Hl & ->)%col_assign_Some ((Er & Ec) & Hall).
  unfold columns_shape, mat_shape, n_cols in *. simpl.
  rewrite length_insert. repeat split; try assumption.
  apply Forall_insert; [assumption|]. congruence.
Qed.

Lemma cube_new_shape (x : T) r c n : cube_shape (cube_new x r c n) r c n.
Proof.
  unfold cube_shape, cube_new, n_slices. simpl.
  rewrite length_replicate. repeat split.
  apply Forall_replicate. split; [reflexivity|].
  unfold n_cols, mat_new. simpl. apply length_replicate.
Qed.

Lemma mat_new_shape (x : T) r c : columns_shape (mat_new x r c) r c.
Proof.
  unfold columns_shape, mat_shape, mat_new, n_cols. simpl.
  rewrite length_replicate. repeat split.
  apply Forall_replicate. apply length_replicate.
Qed.
End ContainerFacts.

(** ** One iteration *)

Section IterationFacts.
Context `{Samplers}.
Variable points : list Z.
Variables Y X : mat elt.
Variable VB : list (mat elt).
Variable prior : Rcpp_List.

Ltac step :=
  repeat first
    [ progress cbn [value events rng_out log app ret andb]
    | rewrite bind_emit | rewrite bind_when | rewrite bind_checkUserInterrupt
    | rewrite bind_draw | rewrite bind_checked
    | match goal with
      | |- context [match ?o with Some _ => _ | None => _ end] =>
          lazymatch type of o with
          | option (_ * _) => destruct o as [[? ?]|] eqn:?
          | _ => destruct o as [?|] eqn:?
          end
      | |- context [if ?b then _ else _] => destruct b eqn:?
      end ].

(** An iteration that does not throw is one Gibbs cycle followed by the
    three copies into slice [s]. *)
Lemma iteration_ok h s l g l' :
  value (iteration h points Y X VB prior s l g) = inr l' ->
  exists B A hyper g' pB pA pH,
    cycle_spec Y X VB prior (aux_B l) (aux_A l) (aux_hyper l) g
      = Some (B, A, hyper, g') /\
    slice_assign (posterior_B l) (Z.to_nat s) B = Some pB /\
    slice_assign (posterior_A l) (Z.to_nat s) A = Some pA /\
    col_assign (posterior_hyper l) (Z.to_nat s) hyper = Some pH /\
    (Z.rem s 200 = 0 -> interrupt_pending h s = false) /\
    l' = Locals B A hyper pB pA pH /\
    iteration h points Y X VB prior s l g =
      Run (inr l') (iteration_events points s l B A hyper) g'.
Proof.
  unfold iteration, cycle_spec, iteration_events. step.
  all: intros E; try discriminate; injection E as <-.
  all: do 7 eexists; repeat split; try reflexivity; try assumption.
  all: intros E; try discriminate.
  all: apply Z.eqb_neq in E; [contradiction|assumption].
Qed.

(** Which calls an iteration makes, however it ends. *)
Lemma iteration_calls h c s l g :
  iterations_of c (events (iteration h points Y X VB prior s l g))
    `prefix_of` (if scheduled points c s then [s] else []).
Proof.
  unfold iteration, iterations_of.
  destruct c; cbn [scheduled]; step; simpl; try reflexivity; apply prefix_nil.
Qed.

Lemma iteration_calls_ok h c s l g l' :
  value (iteration h points Y X VB prior s l g) = inr l' ->
  iterations_of c (events (iteration h points Y X VB prior s l g))
    = if scheduled points c s then [s] else [].
Proof.
  intros (B & A & hyper & g' & pB & pA & pH & _ & _ & _ & _ & _ & _ & ->)%iteration_ok.
  unfold iteration_events, iterations_of. simpl.
  destruct c; cbn [scheduled]; step; reflexivity.
Qed.

(** The progress bar and the interrupt poll come first and do not depend
    on how the iteration ends. *)
Lemma iteration_hooks h c s l g :
  c = CIncrement \/ c = CPoll ->
  iterations_of c (events (iteration h points Y X VB prior s l g))
    = if scheduled points c s then [s] else [].
Proof.
  unfold iteration, iterations_of.
  intros [-> | ->]; cbn [scheduled]; step; reflexivity.
Qed.

(** Nothing precedes the first call of the hyperparameter sampler but
    the two hooks. *)
Lemma iteration_starts h s l g :
  exists rest,
    events (iteration h points Y X VB prior s l g) =
    (if any_eq points s then [Increment s] else []) ++
    (if Z.rem s 200 =? 0 then [CheckUserInterrupt s] else []) ++
    (if (Z.rem s 200 =? 0) && interrupt_pending h s then []
     else SampleHyper s (aux_hyper l) (aux_B l) (aux_A l) :: rest).
Proof.
  unfold iteration.
  match goal with
  | |- context [bind (emit (SampleHyper _ _ _ _)) ?k] => set (K := k)
  end.
  exists (events (K tt g)). step; reflexivity.
Qed.

(** A pending interrupt seen by the poll ends the iteration there. *)
Lemma iteration_interrupted h s l g :
  Z.rem s 200 = 0 -> interrupt_pending h s = true ->
  iteration h points Y X VB prior s l g =
  Run (inl Interrupted)
      ((if any_eq points s then [Increment s] else [])
         ++ [CheckUserInterrupt s]) g.
Proof.
  intros E1 E2. apply Z.eqb_eq in E1. unfold iteration.
  rewrite bind_when. destruct (any_eq points s).
  - rewrite bind_emit, bind_when, E1, bind_checkUserInterrupt, E2. reflexivity.
  - rewrite bind_when, E1, bind_checkUserInterrupt, E2. reflexivity.
Qed.

(** Two hosts that agree at the poll of iteration [s] run it alike. *)
Lemma iteration_host h1 h2 s l g :
  (Z.rem s 200 = 0 -> interrupt_pending h1 s = interrupt_pending h2 s) ->
  iteration h1 points Y X VB prior s l g = iteration h2 points Y X VB prior s l g.
Proof.
  intros E. unfold iteration.
  assert (forall U (k : unit -> M U) g0,
    bind (when (Z.rem s 200 =? 0) (checkUserInterrupt h1 s)) k g0 =
    bind (when (Z.rem s 200 =? 0) (checkUserInterrupt h2 s)) k g0) as E'.
  { intros U k g0. rewrite !bind_when.
    destruct (Z.rem s 200 =? 0) eqn:E0; [|reflexivity].
    apply Z.eqb_eq in E0. rewrite !bind_checkUserInterrupt, E by assumption.
    reflexivity. }
  apply bind_ext. intros _ g0. apply E'.
Qed.

(** What an iteration copies into the hyperparameter history was drawn
    by the hyperparameter sampler. *)
Lemma iteration_writes_hyper h s l g t v :
  WriteHyper t v ∈ events (iteration h points Y X VB prior s l g) ->
  exists hyper B A g0 g',
    sample_hyperparameters hyper B A VB prior g0 = Some (v, g').
Proof.
  unfold iteration. step; intros E.
  all: repeat (apply elem_of_cons in E as [E | E];
               [try discriminate; injection E as -> ->; eauto 6|]).
  all: apply elem_of_nil in E; contradiction.
Qed.
End IterationFacts.

(** ** The loop *)

Section LoopFacts.
Context `{Samplers}.
Variable points : list Z.
Variables Y X : mat elt.
Variable VB : list (mat elt).
Variable prior : Rcpp_List.

Lemma iterations_of_app c ev ev' :
  iterations_of c (ev ++ ev') = iterations_of c ev ++ iterations_of c ev'.
Proof. apply omap_app. Qed.

Lemma schedule_succ c s (n : nat) :
  schedule points c s (Z.of_nat (Datatypes.S n)) =
  (if scheduled points c s then [s] else [])
    ++ schedule points c (s + 1) (Z.of_nat n).
Proof.
  unfold schedule. rewrite seqZ_cons by lia. simpl.
  replace (Z.pred (Z.of_nat (Datatypes.S n))) with (Z.of_nat n) by lia.
  replace (Z.succ s) with (s + 1) by lia.
  destruct (scheduled points c s); reflexivity.
Qed.

Lemma elem_of_schedule c s0 n s :
  s ∈ schedule points c s0 n <->
  s0 <= s < s0 + n /\ scheduled points c s = true.
Proof.
  unfold schedule. rewrite list_elem_of_In, filter_In, <- list_elem_of_In.
  rewrite elem_of_seqZ. reflexivity.
Qed.

Lemma NoDup_schedule c s0 n : NoDup (schedule points c s0 n).
Proof.
  unfold schedule. apply NoDup_ListNoDup, List.NoDup_filter, NoDup_ListNoDup.
  apply NoDup_seqZ.
Qed.

Lemma loop_succ h n s l g :
  gibbs_loop h points Y X VB prior (Datatypes.S n) s l g =
  bind (iteration h points Y X VB prior s l)
       (gibbs_loop h points Y X VB prior n (s + 1)) g.
Proof. reflexivity. Qed.

(** [n + m] iterations are [n] iterations followed by [m] more. *)
Lemma loop_split h n m s l g :
  gibbs_loop h points Y X VB prior (n + m) s l g =
  bind (gibbs_loop h points Y X VB prior n s l)
       (gibbs_loop h points Y X VB prior m (s + Z.of_nat n)) g.
Proof.
  revert s l g. induction n as [|n IH]; intros s l g.
  - simpl. rewrite bind_ret_l. replace (s + Z.of_nat 0) with s by lia. reflexivity.
  - cbn [gibbs_loop Nat.add]. rewrite bind_assoc. apply bind_ext. intros l1 g1.
    rewrite IH. replace (s + 1 + Z.of_nat n) with (s + Z.of_nat (Datatypes.S n)) by lia.
    reflexivity.
Qed.

(** A loop that returns passed through every one of its iterations. *)
Lemma loop_at h n s l g l' (k : nat) :
  value (gibbs_loop h points Y X VB prior n s l g) = inr l' ->
  (k < n)%nat ->
  exists lk lk',
    let rk := gibbs_loop h points Y X VB prior k s l g in
    let ri := iteration h points Y X VB prior (s + Z.of_nat k) lk (rng_out rk) in
    let rm := gibbs_loop h points Y X VB prior (n - k - 1)
                (s + Z.of_nat k + 1) lk' (rng_out ri) in
    value rk = inr lk /\ value ri = inr lk' /\ value rm = inr l' /\
    events (gibbs_loop h points Y X VB prior n s l g)
      = events rk ++ events ri ++ events rm /\
    rng_out (gibbs_loop h points Y X VB prior n s l g) = rng_out rm.
Proof.
  intros Hv Hk.
  assert (gibbs_loop h points Y X VB prior n s l g =
          bind (gibbs_loop h points Y X VB prior k s l)
            (fun lk => bind (iteration h points Y X VB prior (s + Z.of_nat k) lk)
               (gibbs_loop h points Y X VB prior (n - k - 1) (s + Z.of_nat k + 1))) g)
    as E.
  { replace n with (k + Datatypes.S (n - k - 1))%nat at 1 by lia.
    rewrite loop_split. apply bind_ext. intros lk gk. apply loop_succ. }
  rewrite E in Hv |- *. clear E.
  apply bind_inr in Hv as Hv1. destruct Hv1 as (lk & Hk1 & E1).
  rewrite E1 in Hv |- *. clear E1. cbn [value log] in Hv.
  apply bind_inr in Hv as Hv2. destruct Hv2 as (lk' & Hk2 & E2).
  rewrite E2 in Hv |- *. clear E2. cbn [value log] in Hv.
  exists lk, lk'. cbn zeta. cbn [events rng_out log].
  repeat split; assumption || reflexivity.
Qed.

(** A property that every iteration carries forward holds after the loop. *)
Lemma loop_invariant h (P : Z -> locals -> rng -> Prop) n s l g l' :
  (forall t l0 g0 l1,
      s <= t < s + Z.of_nat n -> P t l0 g0 ->
      value (iteration h points Y X VB prior t l0 g0) = inr l1 ->
      P (t + 1) l1 (rng_out (iteration h points Y X VB prior t l0 g0))) ->
  P s l g ->
  value (gibbs_loop h points Y X VB prior n s l g) = inr l' ->
  P (s + Z.of_nat n) l' (rng_out (gibbs_loop h points Y X VB prior n s l g)).
Proof.
  revert s l g. induction n as [|n IH]; intros s l g Hstep HP Hv.
  - simpl in *. injection Hv as <-. replace (s + Z.of_nat 0) with s by lia. exact HP.
  - rewrite loop_succ in Hv |- *.
    apply bind_inr in Hv as Hv1. destruct Hv1 as (l1 & H1 & E1).
    rewrite E1 in Hv |- *. cbn [value rng_out log] in Hv |- *.
    replace (s + Z.of_nat (Datatypes.S n)) with (s + 1 + Z.of_nat n) by lia.
    apply IH; [| |exact Hv].
    + intros t l0 g0 l2 Ht. apply Hstep. lia.
    + apply Hstep; [lia|assumption..].
Qed.

(** The calls of a loop follow the schedule for as long as it runs. *)
Lemma loop_calls h c n s l g :
  iterations_of c (events (gibbs_loop h points Y X VB prior n s l g))
    `prefix_of` schedule points c s (Z.of_nat n).
Proof.
  revert s l g. induction n as [|n IH]; intros s l g.
  - apply prefix_nil.
  - rewrite loop_succ, schedule_succ. unfold bind.
    pose proof (iteration_calls points Y X VB prior h c s l g) as Hp.
    destruct (iteration h points Y X VB prior s l g) as [[e|l1] ev g1] eqn:E.
    + cbn [events] in *. apply prefix_app_r. exact Hp.
    + cbn [events log]. rewrite iterations_of_app.
      replace (iterations_of c ev) with (if scheduled points c s then [s] else []).
      * apply prefix_app, IH.
      * symmetry. pose proof (iteration_calls_ok points Y X VB prior h c s l g l1) as Ho.
        rewrite E in Ho. apply Ho. reflexivity.
Qed.

Lemma loop_calls_ok h c n s l g l' :
  value (gibbs_loop h points Y X VB prior n s l g) = inr l' ->
  iterations_of c (events (gibbs_loop h points Y X VB prior n s l g))
    = schedule points c s (Z.of_nat n).
Proof.
  revert s l g. induction n as [|n IH]; intros s l g Hv.
  - reflexivity.
  - rewrite loop_succ in Hv |- *. rewrite schedule_succ.
    apply bind_inr in Hv as Hv1. destruct Hv1 as (l1 & H1 & E1).
    rewrite E1 in Hv |- *. cbn [value events log] in Hv |- *.
    rewrite iterations_of_app. f_equal.
    + apply (iteration_calls_ok _ _ _ _ _ _ _ _ _ _ _ H1).
    + apply IH. exact Hv.
Qed.

(** Hosts that agree at every poll of the loop run it alike. *)
Lemma loop_host h1 h2 n s l g :
  (forall t, s <= t < s + Z.of_nat n -> Z.rem t 200 = 0 ->
             interrupt_pending h1 t = interrupt_pending h2 t) ->
  gibbs_loop h1 points Y X VB prior n s l g =
  gibbs_loop h2 points Y X VB prior n s l g.
Proof.
  revert s l g. induction n as [|n IH]; intros s l g Hp; [reflexivity|].
  rewrite !loop_succ. unfold bind.
  rewrite (iteration_host points Y X VB prior h1 h2) by (apply Hp; lia).
  destruct (iteration h2 points Y X VB prior s l g) as [[e|l1] ev g1];
    [reflexivity|].
  rewrite IH; [reflexivity|]. intros t Ht. apply Hp. lia.
Qed.

(** A loop that returns saw no pending interrupt at any of its polls. *)
Lemma loop_polls_passed h n s l g l' t :
  value (gibbs_loop h points Y X VB prior n s l g) = inr l' ->
  s <= t < s + Z.of_nat n -> Z.rem t 200 = 0 ->
  interrupt_pending h t = false.
Proof.
  intros Hv Ht Hr.
  destruct (loop_at h n s l g l' (Z.to_nat (t - s)) Hv) as (lk & lk' & Hk);
    [lia|].
  cbn zeta in Hk. destruct Hk as (_ & Hi & _).
  replace (s + Z.of_nat (Z.to_nat (t - s))) with t in Hi by lia.
  apply iteration_ok in Hi as (? & ? & ? & ? & ? & ? & ? & _ & _ & _ & _ & Hp & _).
  apply Hp, Hr.
Qed.

(** The first [k] of [n] iterations return if all [n] do. *)
Lemma loop_prefix_returns h n s l g l' (k : nat) :
  value (gibbs_loop h points Y X VB prior n s l g) = inr l' ->
  (k <= n)%nat ->
  exists lk, value (gibbs_loop h points Y X VB prior k s l g) = inr lk.
Proof.
  intros Hv Hk. replace n with (k + (n - k))%nat in Hv by lia.
  rewrite loop_split in Hv. apply bind_inr in Hv as (lk & Hk1 & _).
  exists lk. exact Hk1.
Qed.
End LoopFacts.

(** ** The entry point *)

Section BsvarFacts.
Context `{Samplers}.

Lemma bsvar_negative h S Y X VB prior sv g :
  S < 0 -> bsvar h S Y X VB prior sv g = Run (inl BadAlloc) [] g.
Proof.
  intros HS. unfold bsvar, cube_ctor.
  apply Z.ltb_lt in HS. rewrite HS. reflexivity.
Qed.

Lemma bsvar_loop h S Y X VB prior sv g :
  0 <= S ->
  bsvar h S Y X VB prior sv g =
  bind (first_iterations h S Y X VB prior sv (Z.to_nat S))
       (fun l => ret (finalize l)) g.
Proof.
  intros HS. unfold bsvar, cube_ctor, mat_ctor, first_iterations, initial.
  assert ((S <? 0) = false) as -> by (apply Z.ltb_ge; exact HS).
  rewrite !bind_ret_l. reflexivity.
Qed.

(** A call that returns ran its loop to the end and packaged the
    variables. *)
Lemma bsvar_returns h S Y X VB prior sv g r :
  value (bsvar h S Y X VB prior sv g) = inr r ->
  0 <= S /\
  exists l,
    value (first_iterations h S Y X VB prior sv (Z.to_nat S) g) = inr l /\
    r = finalize l /\
    events (bsvar h S Y X VB prior sv g)
      = events (first_iterations h S Y X VB prior sv (Z.to_nat S) g) /\
    rng_out (bsvar h S Y X VB prior sv g)
      = rng_out (first_iterations h S Y X VB prior sv (Z.to_nat S) g).
Proof.
  intros Hv. destruct (Z.lt_ge_cases S 0) as [HS|HS].
  - rewrite bsvar_negative in Hv by exact HS. discriminate.
  - split; [exact HS|]. rewrite bsvar_loop in Hv |- * by exact HS.
    apply bind_inr in Hv as Hv1. destruct Hv1 as (l & Hl & E).
    rewrite E in Hv |- *. cbn [value events rng_out log ret] in *.
    exists l. rewrite app_nil_r. repeat split; congruence.
Qed.

Lemma bsvar_events h S Y X VB prior sv g :
  0 <= S ->
  events (bsvar h S Y X VB prior sv g)
    = events (first_iterations h S Y X VB prior sv (Z.to_nat S) g).
Proof.
  intros HS. rewrite bsvar_loop by exact HS. unfold bind.
  destruct (first_iterations h S Y X VB prior sv (Z.to_nat S) g)
    as [[e|l] ev g1]; cbn [events log ret]; [reflexivity|apply app_nil_r].
Qed.
End BsvarFacts.

(** ** The progress grid *)

Section Grid.
(** [nearest a 49] is within one half of [a / 49], strictly: the
    quotient is never half-way, so the rounding mode does not matter. *)
Lemma nearest_is_nearest a : 2 * Z.abs (a - 49 * nearest a 49) < 49.
Proof. unfold nearest. Z.div_mod_to_equations. lia. Qed.

Lemma nearest_last S : nearest (49 * S) 49 = S.
Proof. unfold nearest. Z.div_mod_to_equations. lia. Qed.

(** Consecutive points are [S / 49] or [S / 49 + 1] apart. *)
Lemma nearest_even S i :
  S / 49 <= nearest ((i + 1) * S) 49 - nearest (i * S) 49 <= S / 49 + 1.
Proof. unfold nearest. Z.div_mod_to_equations. lia. Qed.

Lemma any_eq_elem points s : any_eq points s = true <-> s ∈ points.
Proof.
  unfold any_eq. rewrite existsb_exists, list_elem_of_In. split.
  - intros (x & Hx & ->%Z.eqb_eq). exact Hx.
  - intros Hs. exists s. split; [exact Hs|apply Z.eqb_refl].
Qed.

Lemma elem_of_linspace_round S s :
  s ∈ linspace_round S <-> exists i, 0 <= i <= 49 /\ s = nearest (i * S) 49.
Proof.
  unfold linspace_round. rewrite elem_of_app, list_elem_of_fmap, list_elem_of_singleton.
  setoid_rewrite elem_of_seqZ. split.
  - intros [(i & -> & Hi) | ->].
    + exists i. split; [lia|reflexivity].
    + exists 49. split; [lia|]. symmetry. apply nearest_last.
  - intros (i & Hi & ->). destruct (decide (i = 49)) as [-> | Hne].
    + right. apply nearest_last.
    + left. exists i. split; [reflexivity|lia].
Qed.

Lemma length_linspace_round S : length (linspace_round S) = 50%nat.
Proof.
  unfold linspace_round. rewrite length_app, length_map, length_seqZ. reflexivity.
Qed.
End Grid.

(** ** Properties of [bsvar] *)

Section Hooks.
Context `{Samplers}.

(** The calls of a whole run follow the schedule of its loop. *)
Lemma bsvar_calls h c S Y X VB prior sv g :
  iterations_of c (events (bsvar h S Y X VB prior sv g))
    `prefix_of` schedule (linspace_round S) c 0 S.
Proof.
  destruct (Z.lt_ge_cases S 0) as [HS|HS].
  - rewrite bsvar_negative by exact HS. apply prefix_nil.
  - rewrite bsvar_events by exact HS. unfold first_iterations.
    pose proof (loop_calls (linspace_round S) Y X VB prior h c (Z.to_nat S) 0
                  (initial h S Y X sv) g) as Hp.
    rewrite Z2Nat.id in Hp by exact HS. exact Hp.
Qed.

Lemma bsvar_calls_ok h c S Y X VB prior sv g r :
  value (bsvar h S Y X VB prior sv g) = inr r ->
  iterations_of c (events (bsvar h S Y X VB prior sv g))
    = schedule (linspace_round S) c 0 S.
Proof.
  intros (HS & l & Hl & _ & -> & _)%bsvar_returns.
  pose proof (loop_calls_ok (linspace_round S) Y X VB prior h c (Z.to_nat S) 0
                (initial h S Y X sv) g l Hl) as Hp.
  rewrite Z2Nat.id in Hp by exact HS. exact Hp.
Qed.

(** The hooks of the first iteration are called whenever the loop is
    entered. *)
Lemma bsvar_first_hooks h c S Y X VB prior sv g :
  0 < S -> c = CIncrement \/ c = CPoll ->
  (if scheduled (linspace_round S) c 0 then [0] else [])
    `prefix_of` iterations_of c (events (bsvar h S Y X VB prior sv g)).
Proof.
  intros HS Hc. rewrite bsvar_events by lia. unfold first_iterations.
  destruct (Z.to_nat S) as [|n] eqn:En; [lia|]. rewrite loop_succ.
  rewrite <- (iteration_hooks _ Y X VB prior h c 0 (initial h S Y X sv) g Hc).
  destruct (bind_events_prefix
              (iteration h (linspace_round S) Y X VB prior 0 (initial h S Y X sv))
              (gibbs_loop h (linspace_round S) Y X VB prior n (0 + 1)) g)
    as [k ->].
  rewrite iterations_of_app. apply prefix_app_r. reflexivity.
Qed.

(** C5: whatever the chain length [S] and however the run ends, the
    progress bar is incremented in at most 50 iterations, never twice in
    one; each of them is a point [round(i * S / 49)], [0 <= i <= 49], of
    the evenly spaced grid over [0, S]; a run that returns increments it
    at every grid point below [S]; and consecutive grid points are
    [S / 49] or [S / 49 + 1] apart. *)
Theorem progress_on_bounded_even_grid h S Y X VB prior sv g :
  (length (iterations_of CIncrement (events (bsvar h S Y X VB prior sv g)))
     <= 50)%nat /\
  NoDup (iterations_of CIncrement (events (bsvar h S Y X VB prior sv g))) /\
  (forall s,
      s ∈ iterations_of CIncrement (events (bsvar h S Y X VB prior sv g)) ->
      0 <= s < S /\ exists i, 0 <= i <= 49 /\ s = nearest (i * S) 49) /\
  (forall r s i,
      value (bsvar h S Y X VB prior sv g) = inr r ->
      0 <= s < S -> 0 <= i <= 49 -> s = nearest (i * S) 49 ->
      s ∈ iterations_of CIncrement (events (bsvar h S Y X VB prior sv g))) /\
  (forall i, 0 <= i < 49 ->
      S / 49 <= nearest ((i + 1) * S) 49 - nearest (i * S) 49 <= S / 49 + 1).
Proof.
  pose proof (bsvar_calls h CIncrement S Y X VB prior sv g) as [k Hk].
  assert (forall s,
    s ∈ iterations_of CIncrement (events (bsvar h S Y X VB prior sv g)) ->
    0 <= s < S /\ s ∈ linspace_round S) as Hin.
  { intros s Hs.
    assert (s ∈ schedule (linspace_round S) CIncrement 0 S) as Hs'.
    { rewrite Hk. apply elem_of_app. left. exact Hs. }
    apply elem_of_schedule in Hs' as (Hr & Hp). split; [lia|].
    apply any_eq_elem. exact Hp. }
  assert (NoDup (iterations_of CIncrement
                   (events (bsvar h S Y X VB prior sv g)))) as Hnd.
  { pose proof (NoDup_schedule (linspace_round S) CIncrement 0 S) as Hn.
    rewrite Hk in Hn. apply NoDup_app in Hn as (Hn & _). exact Hn. }
  split; [|split; [exact Hnd|split; [|split]]].
  - rewrite <- (length_linspace_round S). apply submseteq_length.
    apply NoDup_submseteq; [exact Hnd|]. intros s Hs. apply Hin, Hs.
  - intros s Hs. destruct (Hin s Hs) as (Hr & Hg). split; [exact Hr|].
    apply elem_of_linspace_round. exact Hg.
  - intros r s i Hv Hs Hi ->. rewrite (bsvar_calls_ok _ _ _ _ _ _ _ _ _ _ Hv).
    apply elem_of_schedule. split; [lia|]. apply any_eq_elem.
    apply elem_of_linspace_round. exists i. split; [exact Hi|reflexivity].
  - intros i _. apply nearest_even.
Qed.

(** C6: the interrupt poll is made exactly in the iterations [s] with
    [s mod 200 = 0]: every poll of a run is such an iteration below [S],
    polled once and in order; iteration 0 is polled whenever the loop is
    entered; and a run that returns has polled every such iteration. *)
Theorem interrupt_polled_every_200 h S Y X VB prior sv g :
  iterations_of CPoll (events (bsvar h S Y X VB prior sv g))
    `prefix_of` List.filter (fun s => Z.rem s 200 =? 0) (seqZ 0 S) /\
  (forall s,
      s ∈ iterations_of CPoll (events (bsvar h S Y X VB prior sv g)) ->
      0 <= s < S /\ s mod 200 = 0) /\
  (0 < S ->
   [0] `prefix_of` iterations_of CPoll (events (bsvar h S Y X VB prior sv g))) /\
  (forall r,
      value (bsvar h S Y X VB prior sv g) = inr r ->
      iterations_of CPoll (events (bsvar h S Y X VB prior sv g))
        = List.filter (fun s => Z.rem s 200 =? 0) (seqZ 0 S)).
Proof.
  split; [|split; [|split]].
  - apply (bsvar_calls h CPoll).
  - intros s Hs. destruct (bsvar_calls h CPoll S Y X VB prior sv g) as [k Hk].
    assert (s ∈ schedule (linspace_round S) CPoll 0 S) as Hs'.
    { rewrite Hk. apply elem_of_app. left. exact Hs. }
    apply elem_of_schedule in Hs' as (Hr & Hp). split; [lia|].
    cbn [scheduled] in Hp. apply Z.eqb_eq in Hp.
    rewrite <- Z.rem_mod_nonneg by lia. exact Hp.
  - intros HS. apply (bsvar_first_hooks h CPoll S Y X VB prior sv g HS). auto.
  - intros r Hv. apply (bsvar_calls_ok h CPoll _ _ _ _ _ _ _ _ Hv).
Qed.

(** C10: with [S = 0] nothing is thrown and nothing is called: the
    histories have no slice and the last draw is the starting values. *)
Theorem zero_draws_return_start h Y X VB prior sv g :
  bsvar h 0 Y X VB prior sv g =
  Run (inr (Result
              (LastDraw (sv_B sv) (sv_A sv) (sv_hyper sv))
              (Posterior (Cube (n_rows Y) (n_rows Y) [])
                         (Cube (n_rows Y) (n_rows X) [])
                         (Mat 5 []))))
      [] g.
Proof.
  rewrite bsvar_loop by lia. unfold first_iterations, initial, bind.
  reflexivity.
Qed.
End Hooks.

Section History.
Context `{Samplers}.

(** What an iteration does to the three buffers: slice [s] receives the
    new state, every other slice and the dimensions stay. *)
Lemma iteration_buffers h points Y X VB prior s l g l' :
  value (iteration h points Y X VB prior s l g) = inr l' ->
  (slice (posterior_B l') (Z.to_nat s) = Some (aux_B l') /\
   slice (posterior_A l') (Z.to_nat s) = Some (aux_A l') /\
   col (posterior_hyper l') (Z.to_nat s) = Some (aux_hyper l')) /\
  (forall i, i <> Z.to_nat s ->
     slice (posterior_B l') i = slice (posterior_B l) i /\
     slice (posterior_A l') i = slice (posterior_A l) i /\
     col (posterior_hyper l') i = col (posterior_hyper l) i) /\
  (forall N K n,
     cube_shape (posterior_B l) N N n /\ cube_shape (posterior_A l) N K n /\
     columns_shape (posterior_hyper l) 5 n ->
     cube_shape (posterior_B l') N N n /\ cube_shape (posterior_A l') N K n /\
     columns_shape (posterior_hyper l') 5 n).
Proof.
  intros (B & A & hyper & g' & pB & pA & pH & _ & HB & HA & HH & _ & -> & _)%iteration_ok.
  cbn [aux_B aux_A aux_hyper posterior_B posterior_A posterior_hyper].
  split; [|split].
  - repeat split; eauto using slice_assign_same, col_assign_same.
  - intros i Hi.
    repeat split; eauto using slice_assign_other, col_assign_other.
  - intros N K n (SB & SA & SH).
    split; [|split]; eauto using slice_assign_shape, col_assign_shape.
Qed.

(** A loop leaves the slices below its first iteration alone. *)
Lemma loop_frame h points Y X VB prior n s l g l' i :
  value (gibbs_loop h points Y X VB prior n s l g) = inr l' ->
  0 <= s -> (i < Z.to_nat s)%nat ->
  slice (posterior_B l') i = slice (posterior_B l) i /\
  slice (posterior_A l') i = slice (posterior_A l) i /\
  col (posterior_hyper l') i = col (posterior_hyper l) i.
Proof.
  intros Hv Hs Hi.
  apply (loop_invariant points Y X VB prior h
           (fun _ l0 _ =>
              slice (posterior_B l0) i = slice (posterior_B l) i /\
              slice (posterior_A l0) i = slice (posterior_A l) i /\
              col (posterior_hyper l0) i = col (posterior_hyper l) i)
           n s l g l'); [|auto|exact Hv].
  intros t l0 g0 l1 Ht (EB & EA & EH) Hv1.
  apply iteration_buffers in Hv1 as (_ & Ho & _).
  destruct (Ho i) as (EB' & EA' & EH'); [lia|].
  rewrite EB', EA', EH'. auto.
Qed.

(** A loop keeps the dimensions of the buffers. *)
Lemma loop_shape h points Y X VB prior n s l g l' N K m :
  value (gibbs_loop h points Y X VB prior n s l g) = inr l' ->
  cube_shape (posterior_B l) N N m /\ cube_shape (posterior_A l) N K m /\
  columns_shape (posterior_hyper l) 5 m ->
  cube_shape (posterior_B l') N N m /\ cube_shape (posterior_A l') N K m /\
  columns_shape (posterior_hyper l') 5 m.
Proof.
  intros Hv Hs.
  apply (loop_invariant points Y X VB prior h
           (fun _ l0 _ =>
              cube_shape (posterior_B l0) N N m /\
              cube_shape (posterior_A l0) N K m /\
              columns_shape (posterior_hyper l0) 5 m)
           n s l g l'); [|exact Hs|exact Hv].
  intros t l0 g0 l1 _ Hs0 Hv1.
  apply iteration_buffers in Hv1 as (_ & _ & Hk). apply Hk, Hs0.
Qed.

(** After at least one iteration the state is the slice written last. *)
Lemma loop_last h points Y X VB prior n s l g l' :
  value (gibbs_loop h points Y X VB prior n s l g) = inr l' ->
  0 <= s -> (0 < n)%nat ->
  slice (posterior_B l') (Z.to_nat (s + Z.of_nat n - 1)) = Some (aux_B l') /\
  slice (posterior_A l') (Z.to_nat (s + Z.of_nat n - 1)) = Some (aux_A l') /\
  col (posterior_hyper l') (Z.to_nat (s + Z.of_nat n - 1)) = Some (aux_hyper l').
Proof.
  intros Hv Hs Hn.
  destruct (loop_at points Y X VB prior h n s l g l' (n - 1) Hv) as (lk & lk' & Hk);
    [lia|].
  cbn zeta in Hk. destruct Hk as (_ & Hi & Hm & _).
  replace (n - (n - 1) - 1)%nat with 0%nat in Hm by lia.
  simpl in Hm. injection Hm as <-.
  apply iteration_buffers in Hi as (Hw & _).
  replace (s + Z.of_nat n - 1) with (s + Z.of_nat (n - 1)) by lia.
  exact Hw.
Qed.

Lemma initial_shape h S Y X sv :
  cube_shape (posterior_B (initial h S Y X sv)) (n_rows Y) (n_rows Y) (Z.to_nat S) /\
  cube_shape (posterior_A (initial h S Y X sv)) (n_rows Y) (n_rows X) (Z.to_nat S) /\
  columns_shape (posterior_hyper (initial h S Y X sv)) 5 (Z.to_nat S).
Proof.
  unfold initial. cbn [posterior_B posterior_A posterior_hyper].
  auto using cube_new_shape, mat_new_shape.
Qed.

(** Runs that return exist: with samplers that do not throw and keep the
    shapes, and no interrupt pending at a poll, every iteration goes
    through. *)
Lemma slice_assign_fits {T} (q : cube T) s m r c n :
  cube_shape q r c n -> mat_shape m r c -> (s < n)%nat ->
  exists q', slice_assign q s m = Some q'.
Proof.
  intros (Er & Ec & En & _) (Mr & Mc) Hs. unfold slice_assign.
  rewrite !bool_decide_eq_true_2 by congruence. eauto.
Qed.

Lemma col_assign_fits {T} (m : mat T) s v r c :
  columns_shape m r c -> length v = r -> (s < c)%nat ->
  exists m', col_assign m s v = Some m'.
Proof.
  intros ((Er & Ec) & _) Hv Hs. unfold col_assign.
  rewrite !bool_decide_eq_true_2 by congruence. eauto.
Qed.

Lemma iteration_returns h points Y X VB prior s l g N K n :
  samplers_keep_shape N K ->
  cube_shape (posterior_B l) N N n /\ cube_shape (posterior_A l) N K n /\
  columns_shape (posterior_hyper l) 5 n ->
  (Z.to_nat s < n)%nat ->
  (Z.rem s 200 = 0 -> interrupt_pending h s = false) ->
  exists l', value (iteration h points Y X VB prior s l g) = inr l'.
Proof.
  intros (Hh & HA & HB) (SB & SA & SH) Hs Hp. unfold iteration.
  assert (forall U (k : unit -> M U),
    (exists x, value (k tt g) = inr x) ->
    exists x,
      value (bind (when (any_eq points s) (emit (Increment s)))
               (fun _ => bind (when (Z.rem s 200 =? 0) (checkUserInterrupt h s)) k)
               g) = inr x) as Hhooks.
  { intros U k Hk. rewrite bind_when.
    destruct (any_eq points s); [rewrite bind_emit|]; rewrite bind_when.
    all: destruct (Z.rem s 200 =? 0) eqn:E0; [|exact Hk].
    all: rewrite bind_checkUserInterrupt, Hp by (apply Z.eqb_eq, E0); exact Hk. }
  apply Hhooks. rewrite bind_emit, bind_draw.
  destruct (Hh (aux_hyper l) (aux_B l) (aux_A l) VB prior g)
    as (y & g1 & -> & Hy).
  rewrite bind_emit, bind_draw.
  destruct (HA (aux_A l) (aux_B l) y Y X prior g1) as (a & g2 & -> & Ha).
  rewrite bind_emit, bind_draw.
  destruct (HB (aux_B l) a y Y X prior VB g2) as (b & g3 & -> & Hb).
  rewrite bind_emit, bind_checked.
  destruct (slice_assign_fits _ (Z.to_nat s) b _ _ _ SB Hb Hs) as (pB & ->).
  rewrite bind_emit, bind_checked.
  destruct (slice_assign_fits _ (Z.to_nat s) a _ _ _ SA Ha Hs) as (pA & ->).
  rewrite bind_emit, bind_checked.
  destruct (col_assign_fits _ (Z.to_nat s) y _ _ SH Hy Hs) as (pH & ->).
  eexists. reflexivity.
Qed.

Lemma loop_returns h points Y X VB prior n s l g N K m :
  samplers_keep_shape N K ->
  cube_shape (posterior_B l) N N m /\ cube_shape (posterior_A l) N K m /\
  columns_shape (posterior_hyper l) 5 m ->
  0 <= s -> (Z.to_nat s + n <= m)%nat ->
  (forall t, s <= t < s + Z.of_nat n -> Z.rem t 200 = 0 ->
             interrupt_pending h t = false) ->
  exists l', value (gibbs_loop h points Y X VB prior n s l g) = inr l'.
Proof.
  intros Hk. revert s l g. induction n as [|n IH]; intros s l g Hsh Hs Hn Hp.
  - eexists. reflexivity.
  - rewrite loop_succ.
    destruct (iteration_returns h points Y X VB prior s l g N K m Hk Hsh)
      as (l1 & H1); [lia|intros Hr; apply Hp; [lia|exact Hr]|].
    pose proof (iteration_buffers _ _ _ _ _ _ _ _ _ _ H1) as (_ & _ & Hkeep).
    unfold bind.
    destruct (iteration h points Y X VB prior s l g) as [v ev g1].
    cbn [value] in H1. subst v. cbn [value log].
    apply IH; [apply Hkeep, Hsh|lia|lia|].
    intros t Ht. apply Hp. lia.
Qed.

Lemma bsvar_returns_when h S Y X VB prior sv g :
  0 <= S ->
  samplers_keep_shape (n_rows Y) (n_rows X) ->
  (forall s, 0 <= s < S -> Z.rem s 200 = 0 -> interrupt_pending h s = false) ->
  exists r, value (bsvar h S Y X VB prior sv g) = inr r.
Proof.
  intros HS Hk Hp. rewrite bsvar_loop by exact HS. unfold first_iterations.
  destruct (loop_returns h (linspace_round S) Y X VB prior (Z.to_nat S) 0
              (initial h S Y X sv) g _ _ (Z.to_nat S) Hk (initial_shape h S Y X sv))
    as (l & Hl); [lia|lia|intros t Ht; apply Hp; lia|].
  unfold bind.
  destruct (gibbs_loop h (linspace_round S) Y X VB prior (Z.to_nat S) 0
              (initial h S Y X sv) g) as [v ev g1].
  cbn [value] in Hl. subst v. eexists. reflexivity.
Qed.

(** C1: a run of [S >= 1] draws that returns yields an A history of
    shape N x K x S, a B history of shape N x N x S and a hyper history
    of shape 5 x S, with N and K the row counts of Y and X, and its
    [last_draw] is slice [S - 1], the last one, of each. *)
Theorem history_shapes_and_last_draw h S Y X VB prior sv g r :
  value (bsvar h S Y X VB prior sv g) = inr r ->
  0 < S ->
  cube_shape (post_A (res_posterior r)) (n_rows Y) (n_rows X) (Z.to_nat S) /\
  cube_shape (post_B (res_posterior r)) (n_rows Y) (n_rows Y) (Z.to_nat S) /\
  columns_shape (post_hyper (res_posterior r)) 5 (Z.to_nat S) /\
  slice (post_A (res_posterior r)) (Z.to_nat (S - 1))
    = Some (ld_A (res_last_draw r)) /\
  slice (post_B (res_posterior r)) (Z.to_nat (S - 1))
    = Some (ld_B (res_last_draw r)) /\
  col (post_hyper (res_posterior r)) (Z.to_nat (S - 1))
    = Some (ld_hyper (res_last_draw r)).
Proof.
  intros (_ & l & Hl & -> & _)%bsvar_returns HS. unfold first_iterations in Hl.
  cbn [finalize res_posterior res_last_draw post_A post_B post_hyper
       ld_A ld_B ld_hyper].
  destruct (loop_shape _ _ _ _ _ _ _ _ _ _ _ _ _ _ Hl (initial_shape h S Y X sv))
    as (SB & SA & SH).
  destruct (loop_last _ _ _ _ _ _ _ _ _ _ _ Hl) as (LB & LA & LH); [lia..|].
  replace (0 + Z.of_nat (Z.to_nat S) - 1) with (S - 1) in * by lia.
  auto 10.
Qed.
Lemma schedule_always points c s n :
  (forall t, scheduled points c t = true) -> schedule points c s n = seqZ s n.
Proof.
  intros Hc. unfold schedule. induction (seqZ s n) as [|t ts IH]; [reflexivity|].
  simpl. rewrite Hc, IH. reflexivity.
Qed.

(** C9: in a run that returns, each slice of each history is written
    once, in the iteration of its index; and the buffers as they stand
    after any [n] iterations already hold, below [n], what the result
    holds: neither a later iteration nor the packaging of the result
    changes a slice written before. *)
Theorem history_append_only h S Y X VB prior sv g r :
  value (bsvar h S Y X VB prior sv g) = inr r ->
  (forall c, c = CWriteB \/ c = CWriteA \/ c = CWriteHyper ->
     iterations_of c (events (bsvar h S Y X VB prior sv g)) = seqZ 0 S) /\
  (forall n, (n <= Z.to_nat S)%nat ->
     exists l,
       value (first_iterations h S Y X VB prior sv n g) = inr l /\
       forall i, (i < n)%nat ->
         slice (post_B (res_posterior r)) i = slice (posterior_B l) i /\
         slice (post_A (res_posterior r)) i = slice (posterior_A l) i /\
         col (post_hyper (res_posterior r)) i = col (posterior_hyper l) i).
Proof.
  intros Hv. split.
  - intros c Hc. rewrite (bsvar_calls_ok _ _ _ _ _ _ _ _ _ _ Hv).
    apply schedule_always. intros t.
    destruct Hc as [-> | [-> | ->]]; reflexivity.
  - apply bsvar_returns in Hv as (_ & lS & HlS & -> & _).
    intros n Hn. unfold first_iterations in *.
    replace (Z.to_nat S) with (n + (Z.to_nat S - n))%nat in HlS by lia.
    rewrite loop_split in HlS.
    apply bind_inr in HlS as Hn1. destruct Hn1 as (l & Hl & E).
    rewrite E in HlS. cbn [value log] in HlS.
    exists l. split; [exact Hl|]. intros i Hi.
    cbn [finalize res_posterior post_A post_B post_hyper].
    apply (loop_frame _ _ _ _ _ _ _ _ _ _ _ _ HlS); lia.
Qed.

(** C2: in a run that returns, every iteration [s] finds the variables
    [l] left by the [s] iterations before it and makes its calls in the
    order [sample_hyperparameters], [sample_A_homosk1],
    [sample_B_homosk1], then the three copies into slice [s].  The A
    sampler is given the hyperparameters just drawn, the B sampler the A
    and the hyperparameters just drawn, the draws are those of one Gibbs
    cycle from [l], and they are what slice [s] of the result holds and
    what the next iteration starts from. *)
Theorem gibbs_cycle_in_order h S Y X VB prior sv g r :
  value (bsvar h S Y X VB prior sv g) = inr r ->
  forall s, 0 <= s < S ->
  exists l gs B A hyper l' g' before after,
    first_iterations h S Y X VB prior sv (Z.to_nat s) g
      = Run (inr l) before gs /\
    cycle_spec Y X VB prior (aux_B l) (aux_A l) (aux_hyper l) gs
      = Some (B, A, hyper, g') /\
    events (bsvar h S Y X VB prior sv g)
      = before ++ iteration_events (linspace_round S) s l B A hyper ++ after /\
    slice (post_B (res_posterior r)) (Z.to_nat s) = Some B /\
    slice (post_A (res_posterior r)) (Z.to_nat s) = Some A /\
    col (post_hyper (res_posterior r)) (Z.to_nat s) = Some hyper /\
    first_iterations h S Y X VB prior sv (Z.to_nat (s + 1)) g
      = Run (inr l')
            (before ++ iteration_events (linspace_round S) s l B A hyper) g' /\
    aux_B l' = B /\ aux_A l' = A /\ aux_hyper l' = hyper.
Proof.
  intros Hv s Hs.
  apply bsvar_returns in Hv as (_ & lS & HlS & -> & -> & _).
  unfold first_iterations in *.
  destruct (loop_at _ _ _ _ _ _ _ _ _ _ _ (Z.to_nat s) HlS) as (l & l' & Hk);
    [lia|].
  cbn zeta in Hk. destruct Hk as (Hl & Hi & Hm & Hev & _).
  replace (0 + Z.of_nat (Z.to_nat s)) with s in * by lia.
  apply iteration_ok in Hi as Hi'.
  destruct Hi' as (B & A & hyper & g' & pB & pA & pH
                   & Hc & HB & HA & HH & _ & -> & Ei).
  rewrite Ei in Hm, Hev. cbn [events rng_out] in Hm, Hev.
  destruct (loop_frame _ _ _ _ _ _ _ _ _ _ _ (Z.to_nat s) Hm)
    as (FB & FA & FH); [lia..|].
  cbn [posterior_B posterior_A posterior_hyper] in FB, FA, FH.
  exists l, (rng_out (gibbs_loop h (linspace_round S) Y X VB prior
                        (Z.to_nat s) 0 (initial h S Y X sv) g)).
  exists B, A, hyper, (Locals B A hyper pB pA pH), g'.
  exists (events (gibbs_loop h (linspace_round S) Y X VB prior
                    (Z.to_nat s) 0 (initial h S Y X sv) g)).
  eexists.
  cbn [finalize res_posterior post_A post_B post_hyper aux_B aux_A aux_hyper].
  split; [|split; [exact Hc|split; [exact Hev|]]].
  { rewrite <- Hl. apply run_eta. }
  rewrite FB, FA, FH.
  split; [eapply slice_assign_same, HB|].
  split; [eapply slice_assign_same, HA|].
  split; [eapply col_assign_same, HH|].
  split; [|auto].
  replace (Z.to_nat (s + 1)) with (Z.to_nat s + 1)%nat by lia.
  rewrite loop_split. unfold bind.
  rewrite (run_eta (gibbs_loop h (linspace_round S) Y X VB prior
                      (Z.to_nat s) 0 (initial h S Y X sv) g)) at 1.
  rewrite Hl. replace (0 + Z.of_nat (Z.to_nat s)) with s by lia.
  cbn [gibbs_loop]. unfold bind. rewrite Ei.
  unfold log, ret. cbn [value events rng_out]. rewrite app_nil_r. reflexivity.
Qed.
End History.

(** ** Independence from the host *)

Section Agreement.
Context {T : Type}.
Implicit Types (q : cube T) (m : mat T).

Lemma take_insert_next {A} (l : list A) n x :
  (n < length l)%nat -> take (Datatypes.S n) (<[n := x]> l) = take n l ++ [x].
Proof.
  intros Hn. rewrite (take_S_r _ _ x).
  - rewrite take_insert_ge by lia. reflexivity.
  - apply list_lookup_insert_eq. exact Hn.
Qed.

Lemma cube_agree_assign n q1 q2 x q1' q2' :
  cube_agree n q1 q2 ->
  slice_assign q1 n x = Some q1' -> slice_assign q2 n x = Some q2' ->
  cube_agree (Datatypes.S n) q1' q2'.
Proof.
  intros (Er & Ec & En & Et)
         (H1 & _ & _ & ->)%slice_assign_Some (H2 & _ & _ & ->)%slice_assign_Some.
  unfold cube_agree, n_slices in *. cbn [c_n_rows c_n_cols slices].
  rewrite !length_insert, !take_insert_next, Et by assumption. auto.
Qed.

Lemma mat_agree_assign n m1 m2 v m1' m2' :
  mat_agree n m1 m2 ->
  col_assign m1 n v = Some m1' -> col_assign m2 n v = Some m2' ->
  mat_agree (Datatypes.S n) m1' m2'.
Proof.
  intros (Er & En & Et)
         (H1 & _ & ->)%col_assign_Some (H2 & _ & ->)%col_assign_Some.
  unfold mat_agree, n_cols in *. cbn [n_rows columns].
  rewrite !length_insert, !take_insert_next, Et by assumption. auto.
Qed.

Lemma cube_agree_all q1 q2 : cube_agree (n_slices q1) q1 q2 -> q1 = q2.
Proof.
  destruct q1 as [r1 c1 s1], q2 as [r2 c2 s2].
  unfold cube_agree, n_slices. cbn [c_n_rows c_n_cols slices].
  intros (-> & -> & En & Et). rewrite take_ge in Et by lia.
  rewrite take_ge in Et by lia. subst. reflexivity.
Qed.

Lemma mat_agree_all m1 m2 : mat_agree (n_cols m1) m1 m2 -> m1 = m2.
Proof.
  destruct m1 as [r1 c1], m2 as [r2 c2].
  unfold mat_agree, n_cols. cbn [n_rows columns].
  intros (-> & En & Et). rewrite take_ge in Et by lia.
  rewrite take_ge in Et by lia. subst. reflexivity.
Qed.
End Agreement.

Section Hosts.
Context `{Samplers}.

Lemma iteration_agree h1 h2 points Y X VB prior s l1 l2 g l1' l2' :
  0 <= s -> locals_agree (Z.to_nat s) l1 l2 ->
  value (iteration h1 points Y X VB prior s l1 g) = inr l1' ->
  value (iteration h2 points Y X VB prior s l2 g) = inr l2' ->
  locals_agree (Z.to_nat (s + 1)) l1' l2' /\
  rng_out (iteration h1 points Y X VB prior s l1 g)
    = rng_out (iteration h2 points Y X VB prior s l2 g).
Proof.
  intros Hs (EB & EA & EH & QB & QA & QH)
    (B1 & A1 & y1 & g1 & pB1 & pA1 & pH1 & C1 & HB1 & HA1 & HH1 & _ & -> & ->)%iteration_ok
    (B2 & A2 & y2 & g2 & pB2 & pA2 & pH2 & C2 & HB2 & HA2 & HH2 & _ & -> & ->)%iteration_ok.
  rewrite EB, EA, EH, C2 in C1. injection C1 as <- <- <- <-.
  replace (Z.to_nat (s + 1)) with (Datatypes.S (Z.to_nat s)) by lia.
  unfold locals_agree.
  cbn [aux_B aux_A aux_hyper posterior_B posterior_A posterior_hyper rng_out].
  eauto 10 using cube_agree_assign, mat_agree_assign.
Qed.

Lemma loop_agree h1 h2 points Y X VB prior n s l1 l2 g l1' l2' :
  0 <= s -> locals_agree (Z.to_nat s) l1 l2 ->
  value (gibbs_loop h1 points Y X VB prior n s l1 g) = inr l1' ->
  value (gibbs_loop h2 points Y X VB prior n s l2 g) = inr l2' ->
  locals_agree (Z.to_nat s + n) l1' l2' /\
  rng_out (gibbs_loop h1 points Y X VB prior n s l1 g)
    = rng_out (gibbs_loop h2 points Y X VB prior n s l2 g).
Proof.
  revert s l1 l2 g. induction n as [|n IH]; intros s l1 l2 g Hs Ha Hv1 Hv2.
  - simpl in *. injection Hv1 as <-. injection Hv2 as <-.
    rewrite Nat.add_0_r. auto.
  - rewrite loop_succ in Hv1, Hv2 |- *. rewrite loop_succ.
    apply bind_inr in Hv1 as Hx. destruct Hx as (k1 & Hk1 & E1).
    apply bind_inr in Hv2 as Hx. destruct Hx as (k2 & Hk2 & E2).
    rewrite E1 in Hv1 |- *. rewrite E2 in Hv2 |- *.
    cbn [value rng_out log] in *.
    destruct (iteration_agree h1 h2 points Y X VB prior s l1 l2 g k1 k2
                Hs Ha Hk1 Hk2) as (Ha' & Eg).
    rewrite Eg in Hv1 |- *.
    replace (Z.to_nat s + Datatypes.S n)%nat with (Z.to_nat (s + 1) + n)%nat by lia.
    apply IH; (lia || assumption).
Qed.

Lemma initial_agree h1 h2 S Y X sv :
  locals_agree 0 (initial h1 S Y X sv) (initial h2 S Y X sv).
Proof.
  unfold locals_agree, initial, cube_agree, mat_agree, n_slices, n_cols.
  cbn [aux_B aux_A aux_hyper posterior_B posterior_A posterior_hyper
       cube_new mat_new c_n_rows c_n_cols slices n_rows columns].
  rewrite !length_replicate. auto 15.
Qed.

(** C7: two runs on the same inputs and the same state of the random
    number generator that both return, return the same histories and
    the same last draw, and leave the generator in the same state,
    whatever the two hosts do about interrupts and whatever fresh
    memory holds: the result is a function of the inputs and of the
    random stream alone. *)
Theorem same_inputs_same_history h1 h2 S Y X VB prior sv g r1 r2 :
  value (bsvar h1 S Y X VB prior sv g) = inr r1 ->
  value (bsvar h2 S Y X VB prior sv g) = inr r2 ->
  r1 = r2 /\
  rng_out (bsvar h1 S Y X VB prior sv g) = rng_out (bsvar h2 S Y X VB prior sv g).
Proof.
  intros (HS & l1 & Hl1 & -> & _ & ->)%bsvar_returns
         (_ & l2 & Hl2 & -> & _ & ->)%bsvar_returns.
  unfold first_iterations in *.
  destruct (loop_agree h1 h2 _ _ _ _ _ _ 0 _ _ g l1 l2 (Z.le_refl 0)
              (initial_agree h1 h2 S Y X sv) Hl1 Hl2)
    as ((EB & EA & EH & QB & QA & QH) & Eg).
  split; [|exact Eg].
  destruct (loop_shape _ _ _ _ _ _ _ _ _ _ _ _ _ _ Hl1 (initial_shape h1 S Y X sv))
    as ((_ & _ & NB & _) & (_ & _ & NA & _) & ((_ & NH) & _)).
  change (Z.to_nat 0 + Z.to_nat S)%nat with (Z.to_nat S) in QB, QA, QH.
  rewrite <- NB in QB. rewrite <- NA in QA. rewrite <- NH in QH.
  apply cube_agree_all in QB, QA. apply mat_agree_all in QH.
  unfold finalize. congruence.
Qed.
End Hosts.

(** ** Interrupts *)

Section Interrupts.
Context `{Samplers}.

Lemma initial_fresh h1 h2 S Y X sv :
  fresh h1 = fresh h2 -> initial h1 S Y X sv = initial h2 S Y X sv.
Proof. intros E. unfold initial. rewrite E. reflexivity. Qed.

(** Hosts that agree at the polls of a run, run it alike. *)
Lemma bsvar_host h1 h2 S Y X VB prior sv g :
  fresh h1 = fresh h2 ->
  (forall s, 0 <= s < S -> Z.rem s 200 = 0 ->
             interrupt_pending h1 s = interrupt_pending h2 s) ->
  bsvar h1 S Y X VB prior sv g = bsvar h2 S Y X VB prior sv g.
Proof.
  intros Ef Hp. destruct (Z.lt_ge_cases S 0) as [HS|HS].
  - rewrite !bsvar_negative by exact HS. reflexivity.
  - rewrite !bsvar_loop by exact HS. unfold bind, first_iterations.
    rewrite (initial_fresh h1 h2) by exact Ef.
    rewrite (loop_host _ _ _ _ _ h1 h2); [reflexivity|].
    intros t Ht. apply Hp. lia.
Qed.

(** C4, as the code has it: an interrupt is noticed only by a poll.  A
    run in which some poll finds one pending returns nothing, neither a
    partial history nor a last draw; requests that no poll of the run
    sees change nothing at all; and when the first poll to see one is
    that of iteration [s0], in a run that would otherwise return, the
    call ends there by throwing, after the [s0] iterations before it
    have written their slices into buffers that are then lost. *)
Theorem interrupt_throws_at_poll h S Y X VB prior sv g :
  (forall s, 0 <= s < S -> Z.rem s 200 = 0 -> interrupt_pending h s = true ->
     forall r, value (bsvar h S Y X VB prior sv g) <> inr r) /\
  (forall h', fresh h' = fresh h ->
     (forall s, 0 <= s < S -> Z.rem s 200 = 0 ->
                interrupt_pending h' s = interrupt_pending h s) ->
     bsvar h' S Y X VB prior sv g = bsvar h S Y X VB prior sv g) /\
  (forall s0 r0,
     0 <= s0 < S -> Z.rem s0 200 = 0 -> interrupt_pending h s0 = true ->
     (forall t, 0 <= t < s0 -> Z.rem t 200 = 0 -> interrupt_pending h t = false) ->
     value (bsvar (Host (fun _ => false) (fresh h)) S Y X VB prior sv g) = inr r0 ->
     value (bsvar h S Y X VB prior sv g) = inl Interrupted /\
     iterations_of CWriteB (events (bsvar h S Y X VB prior sv g)) = seqZ 0 s0).
Proof.
  split; [|split].
  - intros s Hs Hr Hp r Hv.
    apply bsvar_returns in Hv as (_ & l & Hl & _).
    unfold first_iterations in Hl.
    pose proof (loop_polls_passed _ _ _ _ _ _ _ _ _ _ _ s Hl) as Hq.
    rewrite Hq in Hp by lia. discriminate.
  - intros h' Ef Hp. apply bsvar_host; assumption.
  - intros s0 r0 Hs0 Hr Hp Hbefore Hv0.
    apply bsvar_returns in Hv0 as (HS & l0 & Hl0 & _).
    unfold first_iterations in Hl0.
    destruct (loop_prefix_returns _ _ _ _ _ _ _ _ _ _ _ (Z.to_nat s0) Hl0)
      as (lk & Hlk); [lia|].
    rewrite (initial_fresh _ h) in Hlk by reflexivity.
    rewrite (loop_host _ _ _ _ _ _ h) in Hlk.
    2:{ intros t Ht Hrt. cbn [interrupt_pending]. symmetry.
        apply Hbefore; [lia|exact Hrt]. }
    assert (bsvar h S Y X VB prior sv g =
            bind (gibbs_loop h (linspace_round S) Y X VB prior (Z.to_nat s0) 0
                    (initial h S Y X sv))
              (fun lk => bind
                 (iteration h (linspace_round S) Y X VB prior s0 lk)
                 (fun l' => bind
                    (gibbs_loop h (linspace_round S) Y X VB prior
                       (Z.to_nat S - Z.to_nat s0 - 1) (s0 + 1) l')
                    (fun l => ret (finalize l)))) g) as E.
    { rewrite bsvar_loop by exact HS. unfold first_iterations.
      replace (Z.to_nat S)
        with (Z.to_nat s0 + Datatypes.S (Z.to_nat S - Z.to_nat s0 - 1))%nat
        at 1 by lia.
      rewrite (bind_ext_l _ _ _ _ (loop_split _ _ _ _ _ _ _ _ _ _ _)).
      rewrite bind_assoc. apply bind_ext. intros lk0 gk0.
      cbn [gibbs_loop]. rewrite bind_assoc.
      replace (0 + Z.of_nat (Z.to_nat s0)) with s0 by lia. reflexivity. }
    rewrite E. clear E.
    pose proof (loop_calls_ok _ _ _ _ _ h CWriteB _ _ _ _ _ Hlk) as Hw.
    rewrite schedule_always, Z2Nat.id in Hw by (reflexivity || lia).
    destruct (gibbs_loop h (linspace_round S) Y X VB prior (Z.to_nat s0) 0
                (initial h S Y X sv) g) as [v ev gk] eqn:Ek.
    cbn [value events] in Hlk, Hw. subst v.
    rewrite (bind_ok _ _ _ _ _ _ Ek).
    rewrite (bind_fail _ _ _ _ _ _
               (iteration_interrupted _ Y X VB prior h s0 lk gk Hr Hp)).
    cbn [value events log]. split; [reflexivity|].
    rewrite iterations_of_app, Hw.
    destruct (any_eq (linspace_round S) s0); cbn; apply app_nil_r.
Qed.
End Interrupts.

(** ** Dimensions *)

Section Dimensions.
Context `{Samplers}.

Lemma zero_on_grid S : any_eq (linspace_round S) 0 = true.
Proof.
  apply any_eq_elem, elem_of_linspace_round. exists 0.
  split; [lia|reflexivity].
Qed.

(** C3, as the code has it: [bsvar] checks no dimension before its
    loop.  With [S >= 1] and no interrupt pending at the first poll, the
    first things it does, whatever the dimensions of its inputs, are to
    advance the progress bar, poll for an interrupt and call
    [sample_hyperparameters] on the starting values as given.  The one
    check of dimensions in [bsvar] is Armadillo's, in the loop, when a
    drawn state is copied into its slice: a run that returns ends on an
    N x K matrix A, an N x N matrix B and 5 hyperparameters. *)
Theorem first_draw_precedes_any_check h S Y X VB prior sv g :
  0 < S ->
  interrupt_pending h 0 = false ->
  (exists rest,
     events (bsvar h S Y X VB prior sv g) =
     Increment 0 :: CheckUserInterrupt 0
       :: SampleHyper 0 (sv_hyper sv) (sv_B sv) (sv_A sv) :: rest) /\
  (forall r,
     value (bsvar h S Y X VB prior sv g) = inr r ->
     mat_shape (ld_A (res_last_draw r)) (n_rows Y) (n_rows X) /\
     mat_shape (ld_B (res_last_draw r)) (n_rows Y) (n_rows Y) /\
     length (ld_hyper (res_last_draw r)) = 5%nat).
Proof.
  intros HS Hp. split.
  - rewrite bsvar_events by lia. unfold first_iterations.
    destruct (Z.to_nat S) as [|n] eqn:En; [lia|]. rewrite loop_succ.
    destruct (bind_events_prefix
                (iteration h (linspace_round S) Y X VB prior 0 (initial h S Y X sv))
                (gibbs_loop h (linspace_round S) Y X VB prior n (0 + 1)) g)
      as [k ->].
    destruct (iteration_starts (linspace_round S) Y X VB prior h 0
                (initial h S Y X sv) g) as [rest ->].
    rewrite zero_on_grid, Hp. cbn. eexists. reflexivity.
  - intros r (_ & l & Hl & -> & _)%bsvar_returns. unfold first_iterations in Hl.
    destruct (loop_shape _ _ _ _ _ _ _ _ _ _ _ _ _ _ Hl (initial_shape h S Y X sv))
      as ((_ & _ & _ & FB) & (_ & _ & _ & FA) & (_ & FH)).
    destruct (loop_last _ _ _ _ _ _ _ _ _ _ _ Hl) as (LB & LA & LH); [lia..|].
    cbn [finalize res_last_draw ld_A ld_B ld_hyper].
    unfold slice, col in *.
    rewrite Forall_lookup in FB. rewrite Forall_lookup in FA.
    rewrite Forall_lookup in FH.
    split; [exact (FA _ _ LA)|split; [exact (FB _ _ LB)|exact (FH _ _ LH)]].
Qed.
End Dimensions.

(** ** Positivity *)

Section Positivity.
Context `{Samplers}.
Variable positive : elt -> Prop.

Lemma cycle_spec_hyper Y X VB prior B A hyper g B' A' hyper' g' :
  cycle_spec Y X VB prior B A hyper g = Some (B', A', hyper', g') ->
  exists g1, sample_hyperparameters hyper B A VB prior g = Some (hyper', g1).
Proof.
  unfold cycle_spec.
  destruct (sample_hyperparameters hyper B A VB prior g) as [[y g1]|];
    [|discriminate].
  destruct (sample_A_homosk1 A B y Y X prior g1) as [[a g2]|]; [|discriminate].
  destruct (sample_B_homosk1 B a y Y X prior VB g2) as [[b g3]|]; [|discriminate].
  intros E. injection E as <- <- <- <-. eauto.
Qed.

Lemma loop_writes_hyper h points Y X VB prior n s l g t v :
  WriteHyper t v ∈ events (gibbs_loop h points Y X VB prior n s l g) ->
  exists hyper B A g0 g',
    sample_hyperparameters hyper B A VB prior g0 = Some (v, g').
Proof.
  revert s l g. induction n as [|n IH]; intros s l g.
  - simpl. intros E. apply elem_of_nil in E. contradiction.
  - rewrite loop_succ. unfold bind.
    pose proof (iteration_writes_hyper points Y X VB prior h s l g t v) as Hi.
    destruct (iteration h points Y X VB prior s l g) as [[e|l1] ev g1];
      cbn [events log] in *; [exact Hi|].
    intros [E|E]%elem_of_app; [apply Hi, E|apply (IH _ _ _ E)].
Qed.

Lemma loop_hyper_positive h points Y X VB prior n l g l' :
  hyper_draws_positive positive ->
  value (gibbs_loop h points Y X VB prior n 0 l g) = inr l' ->
  Forall (Forall positive) (take n (columns (posterior_hyper l'))).
Proof.
  intros Hc Hv.
  pose proof (loop_invariant points Y X VB prior h
    (fun t l0 _ =>
       Forall (Forall positive) (take (Z.to_nat t) (columns (posterior_hyper l0))))
    n 0 l g l') as Hinv.
  cbn beta in Hinv. rewrite Z.add_0_l, Nat2Z.id in Hinv.
  apply Hinv; [|constructor|exact Hv].
  intros t l0 g0 l1 Ht Hpos
    (B & A & y & g' & pB & pA & pH & Hcy & _ & _ & HH & _ & -> & _)%iteration_ok.
  apply col_assign_Some in HH as (Hlt & _ & ->).
  cbn [posterior_hyper columns].
  replace (Z.to_nat (t + 1)) with (Datatypes.S (Z.to_nat t)) by lia.
  rewrite take_insert_next by exact Hlt.
  apply Forall_app. split; [exact Hpos|].
  apply cycle_spec_hyper in Hcy as (g1 & Hy).
  repeat constructor. apply (Hc _ _ _ _ _ _ _ _ Hy).
Qed.

(** C8: if the hyperparameter sampler draws only strictly positive
    values, as its specification requires, then every vector that
    [bsvar] copies into the hyperparameter history, in any run, and
    every column of the history that it returns, has only strictly
    positive entries: the history holds what the sampler drew and
    nothing else. *)
Theorem hyper_history_positive h S Y X VB prior sv g :
  hyper_draws_positive positive ->
  (forall s v,
     WriteHyper s v ∈ events (bsvar h S Y X VB prior sv g) ->
     Forall positive v) /\
  (forall r s v,
     value (bsvar h S Y X VB prior sv g) = inr r ->
     col (post_hyper (res_posterior r)) s = Some v ->
     Forall positive v).
Proof.
  intros Hc. split.
  - intros s v Hw. destruct (Z.lt_ge_cases S 0) as [HS|HS].
    + rewrite bsvar_negative in Hw by exact HS. apply elem_of_nil in Hw.
      contradiction.
    + rewrite bsvar_events in Hw by exact HS. unfold first_iterations in Hw.
      apply loop_writes_hyper in Hw as (y & B & A & g0 & g' & Hy).
      apply (Hc _ _ _ _ _ _ _ _ Hy).
  - intros r s v (_ & l & Hl & -> & _)%bsvar_returns Hs.
    unfold first_iterations in Hl.
    pose proof (loop_hyper_positive _ _ _ _ _ _ _ _ _ _ Hc Hl) as Hpos.
    destruct (loop_shape _ _ _ _ _ _ _ _ _ _ _ _ _ _ Hl (initial_shape h S Y X sv))
      as (_ & _ & ((_ & NH) & _)).
    unfold n_cols in NH. rewrite take_ge in Hpos by lia.
    rewrite Forall_lookup in Hpos. apply (Hpos s v Hs).
Qed.
End Positivity.

(** ** The properties on the concrete instance *)

Section Instances.
Lemma toy_returns :
  value (bsvar (quiet_host 0) 3 toy_Y toy_X toy_VB tt toy_start 0%nat)
    = inr toy_result.
Proof. vm_compute. reflexivity. Qed.

Lemma toy_returns_busy :
  value (bsvar busy_host 3 toy_Y toy_X toy_VB tt toy_start 0%nat)
    = inr toy_result.
Proof. vm_compute. reflexivity. Qed.

Lemma toy_hyper_draws_positive :
  @hyper_draws_positive toy (fun x : Z => 0 < x).
Proof.
  intros hyper B A VB prior g hyper' g' E. cbn in E. injection E as <- _.
  apply List.Forall_forall. intros x Hx.
  apply in_map_iff in Hx as (y & <- & _). lia.
Qed.

Lemma history_shapes_and_last_draw_witness :
  value (bsvar (quiet_host 0) 3 toy_Y toy_X toy_VB tt toy_start 0%nat)
    = inr toy_result /\
  0 < 3 /\
  cube_shape (post_A (res_posterior toy_result)) 1 2 3 /\
  cube_shape (post_B (res_posterior toy_result)) 1 1 3 /\
  columns_shape (post_hyper (res_posterior toy_result)) 5 3 /\
  slice (post_A (res_posterior toy_result)) 2
    = Some (ld_A (res_last_draw toy_result)) /\
  slice (post_B (res_posterior toy_result)) 2
    = Some (ld_B (res_last_draw toy_result)) /\
  col (post_hyper (res_posterior toy_result)) 2
    = Some (ld_hyper (res_last_draw toy_result)).
Proof.
  split; [exact toy_returns|]. split; [lia|].
  apply (history_shapes_and_last_draw (quiet_host 0) 3 toy_Y toy_X toy_VB tt
           toy_start 0%nat toy_result); [exact toy_returns|lia].
Defined.

Lemma gibbs_cycle_in_order_witness :
  value (bsvar (quiet_host 0) 3 toy_Y toy_X toy_VB tt toy_start 0%nat)
    = inr toy_result /\
  0 <= 1 < 3 /\
  exists (l : @locals toy) gs B A hyper (l' : @locals toy) g' before after,
    first_iterations (quiet_host 0) 3 toy_Y toy_X toy_VB tt toy_start
      (Z.to_nat 1) 0%nat = Run (inr l) before gs /\
    @cycle_spec toy toy_Y toy_X toy_VB tt (aux_B l) (aux_A l) (aux_hyper l) gs
      = Some (B, A, hyper, g') /\
    events (bsvar (quiet_host 0) 3 toy_Y toy_X toy_VB tt toy_start 0%nat)
      = before ++ iteration_events (linspace_round 3) 1 l B A hyper ++ after /\
    slice (post_B (res_posterior toy_result)) (Z.to_nat 1) = Some B /\
    slice (post_A (res_posterior toy_result)) (Z.to_nat 1) = Some A /\
    col (post_hyper (res_posterior toy_result)) (Z.to_nat 1) = Some hyper /\
    first_iterations (quiet_host 0) 3 toy_Y toy_X toy_VB tt toy_start
      (Z.to_nat (1 + 1)) 0%nat
      = Run (inr l')
            (before ++ iteration_events (linspace_round 3) 1 l B A hyper) g' /\
    aux_B l' = B /\ aux_A l' = A /\ aux_hyper l' = hyper.
Proof.
  split; [exact toy_returns|]. split; [lia|].
  apply (gibbs_cycle_in_order (quiet_host 0) 3 toy_Y toy_X toy_VB tt
           toy_start 0%nat toy_result toy_returns 1).
  lia.
Defined.

Lemma first_draw_precedes_any_check_witness :
  0 < 2 /\ interrupt_pending (quiet_host 0) 0 = false /\
  exists rest,
    events (bsvar (quiet_host 0) 2 toy_Y odd_X toy_VB tt odd_start 0%nat) =
    Increment 0 :: CheckUserInterrupt 0
      :: SampleHyper 0 (sv_hyper odd_start) (sv_B odd_start) (sv_A odd_start)
      :: rest.
Proof.
  split; [lia|]. split; [reflexivity|].
  apply (first_draw_precedes_any_check (quiet_host 0) 2 toy_Y odd_X toy_VB tt
           odd_start 0%nat); [lia|reflexivity].
Defined.

(** C3, as stated, fails: on inputs whose dimensions disagree [bsvar]
    raises nothing before its loop; the three samplers are called in
    iteration 0, the B draw is copied into the history, and only the
    copy of the 3x1 A into a 1x2 slice is refused.  (The first three
    events are the same for any samplers.) *)
Lemma mismatched_inputs_reach_the_samplers :
  @dimensions_agree toy toy_Y odd_X toy_VB odd_start = false /\
  bsvar (quiet_host 0) 2 toy_Y odd_X toy_VB tt odd_start 0%nat =
  @Run toy _ (inl SizeMismatch)
      [@Increment toy 0; @CheckUserInterrupt toy 0;
       @SampleHyper toy 0 [1; 1; 1; 1; 1] (Mat 1 [[1]]) (Mat 3 [[0; 0; 0]]);
       @SampleA toy 0 (Mat 3 [[0; 0; 0]]) (Mat 1 [[1]]) [2; 2; 2; 2; 2];
       @SampleB toy 0 (Mat 1 [[1]]) (Mat 3 [[1; 1; 1]]) [2; 2; 2; 2; 2];
       @WriteB toy 0 (Mat 1 [[2]]); @WriteA toy 0 (Mat 3 [[1; 1; 1]])]
      3%nat.
Proof. split; vm_compute; reflexivity. Qed.

Lemma interrupt_throws_at_poll_witness :
  (0 <= 0 < 3 /\ Z.rem 0 200 = 0 /\ interrupt_pending (toy_host 0) 0 = true) /\
  value (bsvar (toy_host 0) 3 toy_Y toy_X toy_VB tt toy_start 0%nat)
    = inl Interrupted /\
  iterations_of CWriteB
    (events (bsvar (toy_host 0) 3 toy_Y toy_X toy_VB tt toy_start 0%nat))
    = seqZ 0 0.
Proof.
  split; [repeat split; lia|].
  apply (proj2 (proj2 (interrupt_throws_at_poll (toy_host 0) 3 toy_Y toy_X
                         toy_VB tt toy_start 0%nat)) 0 toy_result).
  - lia.
  - reflexivity.
  - reflexivity.
  - intros t Ht. lia.
  - exact toy_returns.
Defined.

(** C4, as stated, fails.  A request that arrives during iteration 1 of
    3 is never polled for: the call returns all 3 slices, not 1.  A
    request pending at the poll of iteration 200 of 201 makes the call
    throw: no history is returned at all. *)
Lemma cancellation_returns_no_partial_history :
  (value (bsvar (toy_host 1) 3 toy_Y toy_X toy_VB tt toy_start 0%nat)
     = inr toy_result /\
   n_slices (post_B (res_posterior toy_result)) = 3%nat /\
   n_slices (post_A (res_posterior toy_result)) = 3%nat /\
   n_cols (post_hyper (res_posterior toy_result)) = 3%nat) /\
  value (bsvar (toy_host 200) 201 toy_Y toy_X toy_VB tt toy_start 0%nat)
    = inl Interrupted.
Proof. repeat split; vm_compute; reflexivity. Qed.

Lemma progress_on_bounded_even_grid_witness :
  (length (iterations_of CIncrement
             (events (bsvar (quiet_host 0) 100 toy_Y toy_X toy_VB tt
                        toy_start 0%nat))) <= 50)%nat.
Proof.
  exact (proj1 (progress_on_bounded_even_grid (quiet_host 0) 100 toy_Y toy_X
                  toy_VB tt toy_start 0%nat)).
Defined.

Lemma interrupt_polled_every_200_witness :
  0 < 3 /\
  [0] `prefix_of`
    iterations_of CPoll
      (events (bsvar (quiet_host 0) 3 toy_Y toy_X toy_VB tt toy_start 0%nat)) /\
  iterations_of CPoll
    (events (bsvar (quiet_host 0) 3 toy_Y toy_X toy_VB tt toy_start 0%nat))
    = List.filter (fun s => Z.rem s 200 =? 0) (seqZ 0 3).
Proof.
  pose proof (interrupt_polled_every_200 (quiet_host 0) 3 toy_Y toy_X toy_VB
                tt toy_start 0%nat) as (_ & _ & H0 & Hall).
  split; [lia|]. split; [apply H0; lia|apply (Hall toy_result), toy_returns].
Defined.

Lemma same_inputs_same_history_witness :
  value (bsvar (quiet_host 0) 3 toy_Y toy_X toy_VB tt toy_start 0%nat)
    = inr toy_result /\
  value (bsvar busy_host 3 toy_Y toy_X toy_VB tt toy_start 0%nat)
    = inr toy_result /\
  toy_result = toy_result /\
  rng_out (bsvar (quiet_host 0) 3 toy_Y toy_X toy_VB tt toy_start 0%nat)
    = rng_out (bsvar busy_host 3 toy_Y toy_X toy_VB tt toy_start 0%nat).
Proof.
  split; [exact toy_returns|]. split; [exact toy_returns_busy|].
  exact (same_inputs_same_history (quiet_host 0) busy_host 3 toy_Y toy_X
           toy_VB tt toy_start 0%nat toy_result toy_result
           toy_returns toy_returns_busy).
Defined.

Lemma hyper_history_positive_witness :
  @hyper_draws_positive toy (fun x : Z => 0 < x) /\
  (forall s v,
     @WriteHyper toy s v
       ∈ events (bsvar (quiet_host 0) 3 toy_Y toy_X toy_VB tt toy_start 0%nat) ->
     Forall (fun x : Z => 0 < x) v) /\
  (forall r s v,
     value (bsvar (quiet_host 0) 3 toy_Y toy_X toy_VB tt toy_start 0%nat)
       = inr r ->
     col (post_hyper (res_posterior r)) s = Some v ->
     Forall (fun x : Z => 0 < x) v).
Proof.
  split; [exact toy_hyper_draws_positive|].
  exact (@hyper_history_positive toy (fun x : Z => 0 < x) (quiet_host 0) 3
           toy_Y toy_X toy_VB tt toy_start 0%nat toy_hyper_draws_positive).
Defined.

Lemma history_append_only_witness :
  value (bsvar (quiet_host 0) 3 toy_Y toy_X toy_VB tt toy_start 0%nat)
    = inr toy_result /\
  forall c, c = CWriteB \/ c = CWriteA \/ c = CWriteHyper ->
    iterations_of c
      (events (bsvar (quiet_host 0) 3 toy_Y toy_X toy_VB tt toy_start 0%nat))
    = seqZ 0 3.
Proof.
  split; [exact toy_returns|].
  exact (proj1 (history_append_only (quiet_host 0) 3 toy_Y toy_X toy_VB tt
                  toy_start 0%nat toy_result toy_returns)).
Defined.
End Instances.


(** ** The chain of draws *)

Section ChainFacts.
Context `{Samplers}.

Lemma cycles_add Y X VB prior n m B A hyper g :
  cycles Y X VB prior (n + m) B A hyper g =
  match cycles Y X VB prior n B A hyper g with
  | None => None
  | Some (B', A', hyper', g') => cycles Y X VB prior m B' A' hyper' g'
  end.
Proof.
  revert B A hyper g. induction n as [|n IH]; intros B A hyper g; [reflexivity|].
  cbn [cycles Nat.add].
  destruct (cycle_spec Y X VB prior B A hyper g) as [[[[B' A'] y'] g']|];
    [apply IH|reflexivity].
Qed.

(** A loop of [n] iterations that returns has run [n] Gibbs cycles on the
    state it was given. *)
Lemma loop_cycles h points Y X VB prior n s l g l' :
  value (gibbs_loop h points Y X VB prior n s l g) = inr l' ->
  cycles Y X VB prior n (aux_B l) (aux_A l) (aux_hyper l) g =
  Some (aux_B l', aux_A l', aux_hyper l',
        rng_out (gibbs_loop h points Y X VB prior n s l g)).
Proof.
  revert s l g. induction n as [|n IH]; intros s l g Hv.
  - simpl in *. injection Hv as <-. reflexivity.
  - rewrite loop_succ in Hv |- *.
    apply bind_inr in Hv as Hv1. destruct Hv1 as (l1 & H1 & E1).
    rewrite E1 in Hv |- *. cbn [value rng_out log] in Hv |- *.
    apply iteration_ok in H1
      as (B & A & y & g' & pB & pA & pH & Hc & _ & _ & _ & _ & -> & Ei).
    rewrite Ei in Hv |- *. cbn [rng_out] in Hv |- *.
    cbn [cycles]. rewrite Hc. apply (IH _ _ _ Hv).
Qed.

(** Slice [i] of the buffers of a run is the state after [i + 1] cycles. *)
Lemma loop_orbit h S Y X VB prior sv g l i :
  value (first_iterations h S Y X VB prior sv (Z.to_nat S) g) = inr l ->
  (i < Z.to_nat S)%nat ->
  exists B A hyper gi,
    cycles Y X VB prior (Datatypes.S i) (sv_B sv) (sv_A sv) (sv_hyper sv) g
      = Some (B, A, hyper, gi) /\
    slice (posterior_B l) i = Some B /\
    slice (posterior_A l) i = Some A /\
    col (posterior_hyper l) i = Some hyper.
Proof.
  unfold first_iterations. intros Hv Hi.
  replace (Z.to_nat S) with (Datatypes.S i + (Z.to_nat S - Datatypes.S i))%nat
    in Hv by lia.
  rewrite loop_split in Hv.
  apply bind_inr in Hv as Hv1. destruct Hv1 as (l1 & H1 & E1).
  rewrite E1 in Hv. cbn [value log] in Hv.
  pose proof (loop_cycles _ _ _ _ _ _ _ _ _ _ _ H1) as Hc.
  destruct (loop_last _ _ _ _ _ _ _ _ _ _ _ H1) as (LB & LA & LH); [lia..|].
  replace (Z.to_nat (0 + Z.of_nat (Datatypes.S i) - 1)) with i in LB, LA, LH by lia.
  destruct (loop_frame _ _ _ _ _ _ _ _ _ _ _ i Hv) as (FB & FA & FH); [lia..|].
  cbn [initial aux_B aux_A aux_hyper] in Hc.
  do 4 eexists. split; [exact Hc|]. rewrite FB, FA, FH. auto.
Qed.

(** X2: the histories of a call that returns are the orbit of the Gibbs
    cycle: slice [i] holds the state after [i + 1] cycles from the
    starting values and the generator as the call found it, and the last
    draw and the generator it leaves are those after [S] cycles. *)
Theorem history_is_cycle_orbit h S Y X VB prior sv g r :
  value (bsvar h S Y X VB prior sv g) = inr r ->
  cycles Y X VB prior (Z.to_nat S) (sv_B sv) (sv_A sv) (sv_hyper sv) g
    = Some (ld_B (res_last_draw r), ld_A (res_last_draw r),
            ld_hyper (res_last_draw r),
            rng_out (bsvar h S Y X VB prior sv g)) /\
  forall i, (i < Z.to_nat S)%nat ->
    exists B A hyper gi,
      cycles Y X VB prior (Datatypes.S i) (sv_B sv) (sv_A sv) (sv_hyper sv) g
        = Some (B, A, hyper, gi) /\
      slice (post_B (res_posterior r)) i = Some B /\
      slice (post_A (res_posterior r)) i = Some A /\
      col (post_hyper (res_posterior r)) i = Some hyper.
Proof.
  intros (_ & l & Hl & -> & _ & ->)%bsvar_returns. split.
  - unfold first_iterations in *.
    apply (loop_cycles _ _ _ _ _ _ _ _ _ _ _ Hl).
  - intros i Hi. apply (loop_orbit h S Y X VB prior sv g l i Hl Hi).
Qed.

(** X3: a chain continues across calls.  When a call of [S1] draws is
    followed by a call of [S2] draws that starts from its last draw with
    the generator where it left it, the histories of the two, one after
    the other, are the histories of a single call of [S1 + S2] draws from
    the first starting values; the last draw and the generator at the
    end are the same too.  The three hosts may differ. *)
Theorem continued_chain_is_one_chain h h1 h2 S1 S2 Y X VB prior sv g r1 r2 r :
  value (bsvar h1 S1 Y X VB prior sv g) = inr r1 ->
  value (bsvar h2 S2 Y X VB prior (continue_from (res_last_draw r1))
           (rng_out (bsvar h1 S1 Y X VB prior sv g))) = inr r2 ->
  value (bsvar h (S1 + S2) Y X VB prior sv g) = inr r ->
  slices (post_B (res_posterior r))
    = slices (post_B (res_posterior r1)) ++ slices (post_B (res_posterior r2)) /\
  slices (post_A (res_posterior r))
    = slices (post_A (res_posterior r1)) ++ slices (post_A (res_posterior r2)) /\
  columns (post_hyper (res_posterior r))
    = columns (post_hyper (res_posterior r1))
        ++ columns (post_hyper (res_posterior r2)) /\
  res_last_draw r = res_last_draw r2 /\
  rng_out (bsvar h (S1 + S2) Y X VB prior sv g)
    = rng_out (bsvar h2 S2 Y X VB prior (continue_from (res_last_draw r1))
                 (rng_out (bsvar h1 S1 Y X VB prior sv g))).
Proof.
  intros (HS1 & l1 & Hl1 & -> & _ & ->)%bsvar_returns
         (HS2 & l2 & Hl2 & -> & _ & ->)%bsvar_returns
         (_ & l & Hl & -> & _ & ->)%bsvar_returns.
  cbn [finalize res_last_draw res_posterior post_B post_A post_hyper
       ld_B ld_A ld_hyper continue_from] in *.
  unfold first_iterations, continue_from in *.
  cbn [ld_B ld_A ld_hyper] in *.
  set (g1 := rng_out (gibbs_loop h1 (linspace_round S1) Y X VB prior
                        (Z.to_nat S1) 0 (initial h1 S1 Y X sv) g)) in *.
  set (sv1 := Starting (aux_A l1) (aux_B l1) (aux_hyper l1)) in *.
  assert (Z.to_nat (S1 + S2) = (Z.to_nat S1 + Z.to_nat S2)%nat) as En by lia.
  pose proof (loop_cycles _ _ _ _ _ _ _ _ _ _ _ Hl1) as C1.
  pose proof (loop_cycles _ _ _ _ _ _ _ _ _ _ _ Hl2) as C2.
  pose proof (loop_cycles _ _ _ _ _ _ _ _ _ _ _ Hl) as C.
  cbn [initial aux_B aux_A aux_hyper sv_B sv_A sv_hyper sv1] in C1, C2, C.
  fold g1 in C1.
  rewrite En, cycles_add, C1, C2 in C.
  injection C as EB EA EH Eg.
  destruct (loop_shape _ _ _ _ _ _ _ _ _ _ _ _ _ _ Hl1 (initial_shape h1 S1 Y X sv))
    as ((_ & _ & NB1 & _) & (_ & _ & NA1 & _) & ((_ & NH1) & _)).
  destruct (loop_shape _ _ _ _ _ _ _ _ _ _ _ _ _ _ Hl2 (initial_shape h2 S2 Y X sv1))
    as ((_ & _ & NB2 & _) & (_ & _ & NA2 & _) & ((_ & NH2) & _)).
  destruct (loop_shape _ _ _ _ _ _ _ _ _ _ _ _ _ _ Hl (initial_shape h (S1 + S2) Y X sv))
    as ((_ & _ & NB & _) & (_ & _ & NA & _) & ((_ & NH) & _)).
  unfold n_slices, n_cols in *.
  assert (forall i,
    slices (posterior_B l) !! i
      = (slices (posterior_B l1) ++ slices (posterior_B l2)) !! i /\
    slices (posterior_A l) !! i
      = (slices (posterior_A l1) ++ slices (posterior_A l2)) !! i /\
    columns (posterior_hyper l) !! i
      = (columns (posterior_hyper l1) ++ columns (posterior_hyper l2)) !! i)
    as Hlook.
  { intros i.
    destruct (Nat.lt_ge_cases i (Z.to_nat S1)) as [Hi|Hi];
      [|destruct (Nat.lt_ge_cases i (Z.to_nat S1 + Z.to_nat S2)) as [Hi2|Hi2]].
    - rewrite !lookup_app_l by lia.
      destruct (loop_orbit h (S1 + S2) Y X VB prior sv g l i)
        as (B & A & y & gi & Ci & QB & QA & QH); [exact Hl|lia|].
      unfold slice, col in QB, QA, QH. rewrite QB, QA, QH.
      destruct (loop_orbit h1 S1 Y X VB prior sv g l1 i)
        as (B' & A' & y' & gi' & Ci' & QB' & QA' & QH'); [exact Hl1|lia|].
      unfold slice, col in QB', QA', QH'. rewrite QB', QA', QH'.
      rewrite Ci in Ci'. injection Ci' as <- <- <- _. auto.
    - rewrite !lookup_app_r by lia. rewrite NB1, NA1, NH1.
      destruct (loop_orbit h (S1 + S2) Y X VB prior sv g l i)
        as (B & A & y & gi & Ci & QB & QA & QH); [exact Hl|lia|].
      unfold slice, col in QB, QA, QH. rewrite QB, QA, QH.
      destruct (loop_orbit h2 S2 Y X VB prior sv1 g1 l2 (i - Z.to_nat S1))
        as (B' & A' & y' & gi' & Ci' & QB' & QA' & QH'); [exact Hl2|lia|].
      unfold slice, col in QB', QA', QH'. rewrite QB', QA', QH'.
      replace (Datatypes.S i)
        with (Z.to_nat S1 + Datatypes.S (i - Z.to_nat S1))%nat in Ci by lia.
      rewrite cycles_add, C1 in Ci. cbn [sv1 sv_B sv_A sv_hyper] in Ci'.
      rewrite Ci in Ci'. injection Ci' as <- <- <- _. auto.
    - rewrite !lookup_ge_None_2 by (rewrite ?length_app; lia). auto. }
  repeat split.
  - apply list_eq. intros i. apply (Hlook i).
  - apply list_eq. intros i. apply (Hlook i).
  - apply list_eq. intros i. apply (Hlook i).
  - congruence.
  - rewrite En. congruence.
Qed.
End ChainFacts.

(** ** Calls that throw *)

Section Throws.
Context `{Samplers}.

Ltac walk :=
  repeat first
    [ progress cbn [value events rng_out log app ret andb]
    | rewrite bind_emit | rewrite bind_when | rewrite bind_checkUserInterrupt
    | rewrite bind_draw | rewrite bind_checked
    | match goal with
      | |- context [match ?o with Some _ => _ | None => _ end] =>
          lazymatch type of o with
          | option (_ * _) => destruct o as [[? ?]|] eqn:?
          | _ => destruct o as [?|] eqn:?
          end
      | |- context [if ?b then _ else _] => destruct b eqn:?
      end ].

Lemma slice_assign_None {T} (q : cube T) s m r c n :
  cube_shape q r c n -> (s < n)%nat -> slice_assign q s m = None ->
  ~ mat_shape m r c.
Proof.
  intros Hq Hs E Hm.
  destruct (slice_assign_fits q s m r c n Hq Hm Hs) as (q' & E'). congruence.
Qed.

Lemma col_assign_None {T} (m : mat T) s v r c :
  columns_shape m r c -> (s < c)%nat -> col_assign m s v = None ->
  length v <> r.
Proof.
  intros Hm Hs E Hv.
  destruct (col_assign_fits m s v r c Hm Hv Hs) as (m' & E'). congruence.
Qed.

(** An iteration that throws stops at the call that threw. *)
Lemma iteration_throws h points Y X VB prior s l g e n :
  cube_shape (posterior_B l) (n_rows Y) (n_rows Y) n /\
  cube_shape (posterior_A l) (n_rows Y) (n_rows X) n /\
  columns_shape (posterior_hyper l) 5 n ->
  (Z.to_nat s < n)%nat ->
  value (iteration h points Y X VB prior s l g) = inl e ->
  exists ev,
    last (events (iteration h points Y X VB prior s l g)) = Some ev /\
    iteration_of ev = s /\
    thrown_by h Y X VB prior e ev.
Proof.
  intros (SB & SA & SH) Hs. unfold iteration. walk.
  all: intros E; try discriminate E; injection E as <-.
  all: eexists; split; [reflexivity|]; split; [reflexivity|]; cbn [thrown_by].
  all: try (split; [apply Z.eqb_eq|]; assumption).
  all: try (eexists; eassumption).
  all: try (eapply slice_assign_None; eassumption).
  all: try (eapply col_assign_None; eassumption).
Qed.

(** A loop that throws ran some iterations to their end and threw in the
    next. *)
Lemma loop_throws_at h points Y X VB prior n s l g e :
  value (gibbs_loop h points Y X VB prior n s l g) = inl e ->
  exists (k : nat) lk,
    (k < n)%nat /\
    value (gibbs_loop h points Y X VB prior k s l g) = inr lk /\
    value (iteration h points Y X VB prior (s + Z.of_nat k) lk
             (rng_out (gibbs_loop h points Y X VB prior k s l g))) = inl e /\
    events (gibbs_loop h points Y X VB prior n s l g) =
    events (gibbs_loop h points Y X VB prior k s l g) ++
    events (iteration h points Y X VB prior (s + Z.of_nat k) lk
              (rng_out (gibbs_loop h points Y X VB prior k s l g))).
Proof.
  revert s l g. induction n as [|n IH]; intros s l g Hv; [discriminate Hv|].
  rewrite loop_succ in Hv |- *.
  destruct (iteration h points Y X VB prior s l g) as [[e1|l1] ev1 g1] eqn:Ei.
  - rewrite (bind_fail _ _ _ _ _ _ Ei) in Hv |- *. cbn [value events] in *.
    exists 0%nat, l. cbn [gibbs_loop ret value events rng_out].
    replace (s + Z.of_nat 0) with s by lia. rewrite Ei.
    split; [lia|]. split; [reflexivity|]. split; [exact Hv|reflexivity].
  - rewrite (bind_ok _ _ _ _ _ _ Ei) in Hv |- *. cbn [value events log] in *.
    destruct (IH _ _ _ Hv) as (k & lk & Hk & Hlk & Hthrow & Hev).
    exists (Datatypes.S k), lk. rewrite loop_succ, (bind_ok _ _ _ _ _ _ Ei).
    cbn [value events rng_out log].
    replace (s + Z.of_nat (Datatypes.S k)) with (s + 1 + Z.of_nat k) by lia.
    split; [lia|]. split; [exact Hlk|]. split; [exact Hthrow|].
    rewrite Hev, app_assoc. reflexivity.
Qed.

(** A call that throws in its loop ran some iterations to their end and
    threw in the next. *)
Lemma bsvar_throws_at h S Y X VB prior sv g e :
  value (bsvar h S Y X VB prior sv g) = inl e -> 0 <= S ->
  exists (k : nat) lk,
    (k < Z.to_nat S)%nat /\
    value (first_iterations h S Y X VB prior sv k g) = inr lk /\
    value (iteration h (linspace_round S) Y X VB prior (Z.of_nat k) lk
             (rng_out (first_iterations h S Y X VB prior sv k g))) = inl e /\
    events (bsvar h S Y X VB prior sv g) =
    events (first_iterations h S Y X VB prior sv k g) ++
    events (iteration h (linspace_round S) Y X VB prior (Z.of_nat k) lk
              (rng_out (first_iterations h S Y X VB prior sv k g))).
Proof.
  intros Hv HS. rewrite bsvar_events by exact HS.
  rewrite bsvar_loop in Hv by exact HS. unfold first_iterations in *.
  assert (value (gibbs_loop h (linspace_round S) Y X VB prior (Z.to_nat S) 0
                   (initial h S Y X sv) g) = inl e) as Hl.
  { unfold bind in Hv.
    destruct (gibbs_loop h (linspace_round S) Y X VB prior (Z.to_nat S) 0
                (initial h S Y X sv) g) as [[e'|l'] ev' g'];
      [cbn [value] in *; congruence|discriminate Hv]. }
  destruct (loop_throws_at _ _ _ _ _ _ _ _ _ _ _ Hl)
    as (k & lk & Hk & Hlk & Hthrow & Hev).
  replace (0 + Z.of_nat k) with (Z.of_nat k) in * by lia.
  exists k, lk. auto.
Qed.

(** Every exception that leaves [bsvar] is explained by the last call it
    made. *)
Lemma bsvar_throws h S Y X VB prior sv g e :
  value (bsvar h S Y X VB prior sv g) = inl e ->
  (e = BadAlloc /\ S < 0) \/
  exists ev,
    last (events (bsvar h S Y X VB prior sv g)) = Some ev /\
    0 <= iteration_of ev < S /\
    thrown_by h Y X VB prior e ev /\
    forall t, 0 <= t < iteration_of ev -> Z.rem t 200 = 0 ->
              interrupt_pending h t = false.
Proof.
  intros Hv. destruct (Z.lt_ge_cases S 0) as [HS|HS].
  - left. rewrite bsvar_negative in Hv by exact HS. injection Hv as <-. auto.
  - right.
    destruct (bsvar_throws_at _ _ _ _ _ _ _ _ _ Hv HS)
      as (k & lk & Hk & Hlk & Hthrow & ->).
    unfold first_iterations in *.
    pose proof (loop_shape _ _ _ _ _ _ _ _ _ _ _ _ _ _ Hlk (initial_shape h S Y X sv))
      as Hshape.
    destruct (iteration_throws h (linspace_round S) Y X VB prior
                (Z.of_nat k) lk
                (rng_out (gibbs_loop h (linspace_round S) Y X VB prior k 0
                            (initial h S Y X sv) g))
                e (Z.to_nat S) Hshape) as (ev & Hlast & Hit & Hby);
      [lia|exact Hthrow|].
    exists ev. rewrite Hit.
    split; [|split; [lia|split; [exact Hby|]]].
    + rewrite last_app, Hlast. reflexivity.
    + intros t Ht Hr.
      apply (loop_polls_passed _ _ _ _ _ _ _ _ _ _ _ t Hlk); [lia|exact Hr].
Qed.
End Throws.

Section ThrowsExplained.
Context `{Samplers}.

(** X4: an exception thrown by a sampler ends the call at once: the
    last thing [bsvar] did was to call that sampler, in an iteration
    [s] below [S], on arguments on which it throws; there is no retry,
    no skipped iteration and no later call. *)
Theorem sampler_exception_is_final h S Y X VB prior sv g f :
  value (bsvar h S Y X VB prior sv g) = inl (SamplerFailed f) ->
  exists s, 0 <= s < S /\
    match f with
    | Hyper => exists hyper B A g0,
        last (events (bsvar h S Y X VB prior sv g))
          = Some (SampleHyper s hyper B A) /\
        sample_hyperparameters hyper B A VB prior g0 = None
    | RowsA => exists A B hyper g0,
        last (events (bsvar h S Y X VB prior sv g))
          = Some (SampleA s A B hyper) /\
        sample_A_homosk1 A B hyper Y X prior g0 = None
    | ColumnsB => exists B A hyper g0,
        last (events (bsvar h S Y X VB prior sv g))
          = Some (SampleB s B A hyper) /\
        sample_B_homosk1 B A hyper Y X prior VB g0 = None
    end.
Proof.
  intros [(E & _) | (ev & Hlast & Hs & Hby & _)]%bsvar_throws; [discriminate E|].
  exists (iteration_of ev). split; [exact Hs|].
  destruct f, ev; cbn [thrown_by] in Hby; try contradiction;
    destruct Hby as (g0 & Hg); cbn [iteration_of]; eauto 6.
Qed.

(** X5: the only size error that leaves [bsvar] comes from a draw of the
    wrong shape: the last thing it did was to copy into slice [s], with
    [s] below [S], a B that is not N x N, an A that is not N x K or
    hyperparameters that are not 5.  The slice index itself is never out
    of range. *)
Theorem size_error_is_a_misshapen_draw h S Y X VB prior sv g :
  value (bsvar h S Y X VB prior sv g) = inl SizeMismatch ->
  exists s, 0 <= s < S /\
    ((exists B,
        last (events (bsvar h S Y X VB prior sv g)) = Some (WriteB s B) /\
        ~ mat_shape B (n_rows Y) (n_rows Y)) \/
     (exists A,
        last (events (bsvar h S Y X VB prior sv g)) = Some (WriteA s A) /\
        ~ mat_shape A (n_rows Y) (n_rows X)) \/
     (exists hyper,
        last (events (bsvar h S Y X VB prior sv g)) = Some (WriteHyper s hyper) /\
        length hyper <> 5%nat)).
Proof.
  intros [(E & _) | (ev & Hlast & Hs & Hby & _)]%bsvar_throws; [discriminate E|].
  exists (iteration_of ev). split; [exact Hs|].
  destruct ev; cbn [thrown_by] in Hby; try contradiction; cbn [iteration_of];
    eauto 6.
Qed.

(** X6: a call is interrupted only by the first poll that finds a request
    pending: the last thing it did was the poll of an iteration [s]
    below [S] with [s mod 200 = 0] at which a request was pending, no
    earlier poll had found one, and the [s] iterations before it had each
    written their slice. *)
Theorem interrupted_by_first_pending_poll h S Y X VB prior sv g :
  value (bsvar h S Y X VB prior sv g) = inl Interrupted ->
  exists s, 0 <= s < S /\ s mod 200 = 0 /\
    interrupt_pending h s = true /\
    last (events (bsvar h S Y X VB prior sv g)) = Some (CheckUserInterrupt s) /\
    (forall t, 0 <= t < s -> t mod 200 = 0 -> interrupt_pending h t = false) /\
    iterations_of CWriteHyper (events (bsvar h S Y X VB prior sv g)) = seqZ 0 s.
Proof.
  intros Hv.
  destruct (bsvar_throws _ _ _ _ _ _ _ _ _ Hv)
    as [(E & _) | (ev & Hlast & Hs & Hby & Hpolls)]; [discriminate E|].
  destruct ev; cbn [thrown_by] in Hby; try contradiction.
  cbn [iteration_of] in *. destruct Hby as (Hr & Hp).
  exists s. split; [exact Hs|].
  split; [rewrite <- Z.rem_mod_nonneg by lia; exact Hr|].
  split; [exact Hp|]. split; [exact Hlast|]. split.
  - intros t Ht Hm. apply Hpolls; [exact Ht|].
    rewrite Z.rem_mod_nonneg by lia. exact Hm.
  - destruct (bsvar_throws_at _ _ _ _ _ _ _ _ _ Hv) as (k & lk & Hk & Hlk & Hthrow & Hev);
      [lia|].
    rewrite Hev in Hlast |- *.
    unfold first_iterations in *.
    pose proof (loop_shape _ _ _ _ _ _ _ _ _ _ _ _ _ _ Hlk (initial_shape h S Y X sv))
      as Hshape.
    destruct (iteration_throws h (linspace_round S) Y X VB prior
                (Z.of_nat k) lk
                (rng_out (gibbs_loop h (linspace_round S) Y X VB prior k 0
                            (initial h S Y X sv) g))
                Interrupted (Z.to_nat S) Hshape) as (ev & Hlast' & Hit & _);
      [lia|exact Hthrow|].
    rewrite last_app, Hlast' in Hlast. injection Hlast as ->.
    cbn [iteration_of] in Hit. subst s.
    rewrite iterations_of_app.
    rewrite (loop_calls_ok _ _ _ _ _ _ _ _ _ _ _ _ Hlk).
    rewrite schedule_always by reflexivity.
    rewrite iteration_interrupted by assumption. cbn [events].
    destruct (any_eq (linspace_round S) (Z.of_nat k)); cbn; apply app_nil_r.
Qed.
End ThrowsExplained.

(** ** Calls that return *)

Section Returns.
Context `{Samplers}.



End Returns.

(** ** Counting the calls *)

Section Counts.
Context `{Samplers}.

Lemma grid_below S i :
  49 <= S -> 0 <= i < 49 -> 0 <= nearest (i * S) 49 < S.
Proof.
  intros HS Hi. assert (0 <= i * S <= 48 * S) by nia.
  unfold nearest. Z.div_mod_to_equations. lia.
Qed.

Lemma grid_apart S i j :
  49 <= S -> 0 <= i -> i < j -> nearest (i * S) 49 < nearest (j * S) 49.
Proof.
  intros HS Hi Hj. assert (i * S + S <= j * S) by nia.
  unfold nearest. Z.div_mod_to_equations. lia.
Qed.

Lemma grid_count_small S :
  0 <= S < 49 ->
  length (List.filter (any_eq (linspace_round S)) (seqZ 0 S)) = Z.to_nat S.
Proof.
  intros HS.
  assert (forallb
            (fun S => Nat.eqb
               (length (List.filter (any_eq (linspace_round S)) (seqZ 0 S)))
               (Z.to_nat S))
            (seqZ 0 49) = true) as Hall by (vm_compute; reflexivity).
  rewrite forallb_forall in Hall. apply Nat.eqb_eq, Hall.
  apply list_elem_of_In, elem_of_seqZ. lia.
Qed.

Lemma grid_count_large S :
  49 <= S ->
  length (List.filter (any_eq (linspace_round S)) (seqZ 0 S)) = 49%nat.
Proof.
  intros HS.
  assert (List.filter (any_eq (linspace_round S)) (seqZ 0 S)
            ≡ₚ map (fun i => nearest (i * S) 49) (seqZ 0 49)) as Hperm.
  { apply NoDup_Permutation.
    - apply NoDup_ListNoDup, List.NoDup_filter, NoDup_ListNoDup, NoDup_seqZ.
    - apply NoDup_fmap_2_strong; [|apply NoDup_seqZ].
      intros i j Hi%elem_of_seqZ Hj%elem_of_seqZ E.
      destruct (Z.lt_trichotomy i j) as [Hlt | [Heq | Hgt]]; [|exact Heq|].
      + pose proof (grid_apart S i j HS ltac:(lia) Hlt). lia.
      + pose proof (grid_apart S j i HS ltac:(lia) Hgt). lia.
    - intros x. rewrite list_elem_of_In, filter_In, <- list_elem_of_In.
      rewrite elem_of_seqZ, any_eq_elem. unfold linspace_round.
      rewrite elem_of_app, list_elem_of_singleton.
      change (map (fun i => nearest (i * S) 49) (seqZ 0 49))
        with ((fun i => nearest (i * S) 49) <$> seqZ 0 49).
      rewrite list_elem_of_fmap. setoid_rewrite elem_of_seqZ. split.
      + intros (Hx & [Hg | ->]); [exact Hg|lia].
      + intros (i & -> & Hi). pose proof (grid_below S i HS ltac:(lia)).
        split; [lia|]. left. exists i. auto. }
  rewrite Hperm, length_map, length_seqZ. reflexivity.
Qed.

(** X7: the progress bar, built for 50 ticks, is never filled: a call
    increments it at most [min S 49] times, and exactly that often when
    it returns. *)
Theorem progress_bar_stops_at_49 h S Y X VB prior sv g :
  (length (iterations_of CIncrement (events (bsvar h S Y X VB prior sv g)))
     <= Z.to_nat (Z.min S 49))%nat /\
  (forall r,
      value (bsvar h S Y X VB prior sv g) = inr r ->
      length (iterations_of CIncrement (events (bsvar h S Y X VB prior sv g)))
        = Z.to_nat (Z.min S 49)).
Proof.
  assert (length (schedule (linspace_round S) CIncrement 0 S)
            = Z.to_nat (Z.min S 49)) as Hcount.
  { change (schedule (linspace_round S) CIncrement 0 S)
      with (List.filter (any_eq (linspace_round S)) (seqZ 0 S)).
    destruct (Z.lt_ge_cases S 0) as [Hneg|Hpos];
      [|destruct (Z.lt_ge_cases S 49) as [Hsmall|Hlarge]].
    - rewrite seqZ_nil by lia. simpl. lia.
    - rewrite grid_count_small by lia. lia.
    - rewrite grid_count_large by lia. lia. }
  split.
  - rewrite <- Hcount. apply prefix_length, bsvar_calls.
  - intros r Hv. rewrite (bsvar_calls_ok _ _ _ _ _ _ _ _ _ _ Hv). exact Hcount.
Qed.

Ltac walk :=
  repeat first
    [ progress cbn [value events rng_out log app ret andb]
    | rewrite bind_emit | rewrite bind_when | rewrite bind_checkUserInterrupt
    | rewrite bind_draw | rewrite bind_checked
    | match goal with
      | |- context [match ?o with Some _ => _ | None => _ end] =>
          lazymatch type of o with
          | option (_ * _) => destruct o as [[? ?]|] eqn:?
          | _ => destruct o as [?|] eqn:?
          end
      | |- context [if ?b then _ else _] => destruct b eqn:?
      end ].

(** The samplers of an iteration are called in turn, however it ends. *)
Lemma iteration_sampler_calls h points Y X VB prior s l g :
  iterations_of CColumnsB (events (iteration h points Y X VB prior s l g))
    `prefix_of`
    iterations_of CRowsA (events (iteration h points Y X VB prior s l g)) /\
  iterations_of CRowsA (events (iteration h points Y X VB prior s l g))
    `prefix_of`
    iterations_of CHyper (events (iteration h points Y X VB prior s l g)).
Proof.
  unfold iteration, iterations_of. walk.
  all: split; simpl; (reflexivity || apply prefix_nil).
Qed.

(** X8: in any run each sampler is called at most once in an iteration,
    in the iterations 0, 1, 2, ... without a gap; the A sampler is never
    called in an iteration in which the hyperparameter sampler was not,
    nor the B sampler in one in which the A sampler was not; and a call
    that returns has called each of the three exactly once in each of
    the iterations 0 to [S - 1]. *)
Theorem samplers_called_in_turn h S Y X VB prior sv g :
  iterations_of CHyper (events (bsvar h S Y X VB prior sv g))
    `prefix_of` seqZ 0 S /\
  iterations_of CRowsA (events (bsvar h S Y X VB prior sv g))
    `prefix_of` iterations_of CHyper (events (bsvar h S Y X VB prior sv g)) /\
  iterations_of CColumnsB (events (bsvar h S Y X VB prior sv g))
    `prefix_of` iterations_of CRowsA (events (bsvar h S Y X VB prior sv g)) /\
  (forall r c,
      value (bsvar h S Y X VB prior sv g) = inr r ->
      c = CHyper \/ c = CRowsA \/ c = CColumnsB ->
      iterations_of c (events (bsvar h S Y X VB prior sv g)) = seqZ 0 S).
Proof.
  split; [|split; [|split]].
  - pose proof (bsvar_calls h CHyper S Y X VB prior sv g) as Hp.
    rewrite schedule_always in Hp by reflexivity. exact Hp.
  - destruct (value (bsvar h S Y X VB prior sv g)) as [e|r] eqn:Hv.
    + destruct (Z.lt_ge_cases S 0) as [HS|HS].
      { rewrite bsvar_negative by exact HS. reflexivity. }
      destruct (bsvar_throws_at _ _ _ _ _ _ _ _ _ Hv HS)
        as (k & lk & Hk & Hlk & _ & ->).
      unfold first_iterations in *. rewrite !iterations_of_app.
      rewrite !(loop_calls_ok _ _ _ _ _ _ _ _ _ _ _ _ Hlk).
      rewrite !schedule_always by reflexivity.
      apply prefix_app, iteration_sampler_calls.
    + rewrite !(bsvar_calls_ok _ _ _ _ _ _ _ _ _ _ Hv).
      rewrite !schedule_always by reflexivity. reflexivity.
  - destruct (value (bsvar h S Y X VB prior sv g)) as [e|r] eqn:Hv.
    + destruct (Z.lt_ge_cases S 0) as [HS|HS].
      { rewrite bsvar_negative by exact HS. reflexivity. }
      destruct (bsvar_throws_at _ _ _ _ _ _ _ _ _ Hv HS)
        as (k & lk & Hk & Hlk & _ & ->).
      unfold first_iterations in *. rewrite !iterations_of_app.
      rewrite !(loop_calls_ok _ _ _ _ _ _ _ _ _ _ _ _ Hlk).
      rewrite !schedule_always by reflexivity.
      apply prefix_app, iteration_sampler_calls.
    + rewrite !(bsvar_calls_ok _ _ _ _ _ _ _ _ _ _ Hv).
      rewrite !schedule_always by reflexivity. reflexivity.
  - intros r c Hv Hc. rewrite (bsvar_calls_ok _ _ _ _ _ _ _ _ _ _ Hv).
    apply schedule_always. intros t.
    destruct Hc as [-> | [-> | ->]]; reflexivity.
Qed.
End Counts.

(** ** These properties on the concrete instances *)

Section MoreInstances.

Lemma toy_returns_1 :
  value (bsvar (quiet_host 0) 1 toy_Y toy_X toy_VB tt toy_start 0%nat)
    = inr toy_result_1.
Proof. vm_compute. reflexivity. Qed.

Lemma toy_returns_2 :
  value (bsvar busy_host 2 toy_Y toy_X toy_VB tt
           (continue_from (res_last_draw toy_result_1))
           (rng_out (bsvar (quiet_host 0) 1 toy_Y toy_X toy_VB tt toy_start 0%nat)))
    = inr toy_result_2.
Proof. vm_compute. reflexivity. Qed.

Lemma brittle_throws :
  value (bsvar brittle_host 3 toy_Y toy_X toy_VB tt brittle_start 0%nat)
    = inl (SamplerFailed RowsA).
Proof. vm_compute. reflexivity. Qed.

Lemma odd_throws :
  value (bsvar (quiet_host 0) 2 toy_Y odd_X toy_VB tt odd_start 0%nat)
    = inl SizeMismatch.
Proof. vm_compute. reflexivity. Qed.

Lemma toy_interrupted :
  value (bsvar (toy_host 0) 3 toy_Y toy_X toy_VB tt toy_start 0%nat)
    = inl Interrupted.
Proof. vm_compute. reflexivity. Qed.


Lemma history_is_cycle_orbit_witness :
  value (bsvar (quiet_host 0) 3 toy_Y toy_X toy_VB tt toy_start 0%nat)
    = inr toy_result /\
  @cycles toy toy_Y toy_X toy_VB tt (Z.to_nat 3)
      (sv_B toy_start) (sv_A toy_start) (sv_hyper toy_start) 0%nat
    = Some (ld_B (res_last_draw toy_result), ld_A (res_last_draw toy_result),
            ld_hyper (res_last_draw toy_result),
            rng_out (bsvar (quiet_host 0) 3 toy_Y toy_X toy_VB tt toy_start
                       0%nat)).
Proof.
  split; [exact toy_returns|].
  exact (proj1 (history_is_cycle_orbit (quiet_host 0) 3 toy_Y toy_X toy_VB tt
                  toy_start 0%nat toy_result toy_returns)).
Defined.

Lemma continued_chain_is_one_chain_witness :
  value (bsvar (quiet_host 0) 1 toy_Y toy_X toy_VB tt toy_start 0%nat)
    = inr toy_result_1 /\
  value (bsvar busy_host 2 toy_Y toy_X toy_VB tt
           (continue_from (res_last_draw toy_result_1))
           (rng_out (bsvar (quiet_host 0) 1 toy_Y toy_X toy_VB tt toy_start 0%nat)))
    = inr toy_result_2 /\
  value (bsvar (quiet_host 0) (1 + 2) toy_Y toy_X toy_VB tt toy_start 0%nat)
    = inr toy_result /\
  slices (post_B (res_posterior toy_result))
    = slices (post_B (res_posterior toy_result_1))
        ++ slices (post_B (res_posterior toy_result_2)) /\
  slices (post_A (res_posterior toy_result))
    = slices (post_A (res_posterior toy_result_1))
        ++ slices (post_A (res_posterior toy_result_2)) /\
  columns (post_hyper (res_posterior toy_result))
    = columns (post_hyper (res_posterior toy_result_1))
        ++ columns (post_hyper (res_posterior toy_result_2)) /\
  res_last_draw toy_result = res_last_draw toy_result_2.
Proof.
  split; [exact toy_returns_1|]. split; [exact toy_returns_2|].
  split; [exact toy_returns|].
  pose proof (continued_chain_is_one_chain (quiet_host 0) (quiet_host 0)
                busy_host 1 2 toy_Y toy_X toy_VB tt toy_start 0%nat
                toy_result_1 toy_result_2 toy_result
                toy_returns_1 toy_returns_2 toy_returns)
    as (HB & HA & HH & HL & _).
  auto.
Defined.

Lemma sampler_exception_is_final_witness :
  value (bsvar brittle_host 3 toy_Y toy_X toy_VB tt brittle_start 0%nat)
    = inl (SamplerFailed RowsA) /\
  exists s, 0 <= s < 3 /\
    exists A B hyper g0,
      last (events (bsvar brittle_host 3 toy_Y toy_X toy_VB tt brittle_start
                      0%nat))
        = Some (@SampleA brittle s A B hyper) /\
      @sample_A_homosk1 brittle A B hyper toy_Y toy_X tt g0 = None.
Proof.
  split; [exact brittle_throws|].
  exact (sampler_exception_is_final brittle_host 3 toy_Y toy_X toy_VB tt
           brittle_start 0%nat RowsA brittle_throws).
Defined.

Lemma size_error_is_a_misshapen_draw_witness :
  value (bsvar (quiet_host 0) 2 toy_Y odd_X toy_VB tt odd_start 0%nat)
    = inl SizeMismatch /\
  exists s, 0 <= s < 2 /\
    ((exists B,
        last (events (bsvar (quiet_host 0) 2 toy_Y odd_X toy_VB tt odd_start
                        0%nat)) = Some (@WriteB toy s B) /\
        ~ mat_shape B (n_rows toy_Y) (n_rows toy_Y)) \/
     (exists A,
        last (events (bsvar (quiet_host 0) 2 toy_Y odd_X toy_VB tt odd_start
                        0%nat)) = Some (@WriteA toy s A) /\
        ~ mat_shape A (n_rows toy_Y) (n_rows odd_X)) \/
     (exists hyper,
        last (events (bsvar (quiet_host 0) 2 toy_Y odd_X toy_VB tt odd_start
                        0%nat)) = Some (@WriteHyper toy s hyper) /\
        length hyper <> 5%nat)).
Proof.
  split; [exact odd_throws|].
  exact (size_error_is_a_misshapen_draw (quiet_host 0) 2 toy_Y odd_X toy_VB tt
           odd_start 0%nat odd_throws).
Defined.

Lemma interrupted_by_first_pending_poll_witness :
  value (bsvar (toy_host 0) 3 toy_Y toy_X toy_VB tt toy_start 0%nat)
    = inl Interrupted /\
  exists s, 0 <= s < 3 /\ s mod 200 = 0 /\
    interrupt_pending (toy_host 0) s = true /\
    last (events (bsvar (toy_host 0) 3 toy_Y toy_X toy_VB tt toy_start 0%nat))
      = Some (@CheckUserInterrupt toy s) /\
    (forall t, 0 <= t < s -> t mod 200 = 0 ->
               interrupt_pending (toy_host 0) t = false) /\
    iterations_of CWriteHyper
      (events (bsvar (toy_host 0) 3 toy_Y toy_X toy_VB tt toy_start 0%nat))
      = seqZ 0 s.
Proof.
  split; [exact toy_interrupted|].
  exact (interrupted_by_first_pending_poll (toy_host 0) 3 toy_Y toy_X toy_VB tt
           toy_start 0%nat toy_interrupted).
Defined.

Lemma progress_bar_stops_at_49_witness :
  value (bsvar (quiet_host 0) 3 toy_Y toy_X toy_VB tt toy_start 0%nat)
    = inr toy_result /\
  length (iterations_of CIncrement
            (events (bsvar (quiet_host 0) 3 toy_Y toy_X toy_VB tt toy_start
                       0%nat)))
    = Z.to_nat (Z.min 3 49).
Proof.
  split; [exact toy_returns|].
  exact (proj2 (progress_bar_stops_at_49 (quiet_host 0) 3 toy_Y toy_X toy_VB tt
                  toy_start 0%nat) toy_result toy_returns).
Defined.

Lemma samplers_called_in_turn_witness :
  value (bsvar (quiet_host 0) 3 toy_Y toy_X toy_VB tt toy_start 0%nat)
    = inr toy_result /\
  iterations_of CColumnsB
    (events (bsvar (quiet_host 0) 3 toy_Y toy_X toy_VB tt toy_start 0%nat))
    = seqZ 0 3.
Proof.
  split; [exact toy_returns|].
  apply (proj2 (proj2 (proj2
           (samplers_called_in_turn (quiet_host 0) 3 toy_Y toy_X toy_VB tt
              toy_start 0%nat))) toy_result CColumnsB toy_returns).
  auto.
Defined.
End MoreInstances.
